(** * UW_SLAM: the incremental front end [front_end_isam.py]

    A shallow embedding of [AUViSAM.get_nav_state] and of the run driver
    [AUViSAM.iSAM] of
    [cirs_girona_cala_viuda/scripts/frontend/front_end_isam.py], followed
    by the properties of the driver: epoch stepping, the IMU read cursor,
    what is put into the per-step factor graph and value container, and
    the reconstruction of the orientation from the logged Euler angles.

    Modelling conventions.
    - Python floats are idealised as real numbers ([R]); timestamps are
      the integer nanosecond counts of the logs ([Z]).
    - Indexing a loaded series out of range raises; the driver only ever
      indexes with non-negative integers, so indices are [nat].
    - The locals of [iSAM] live in a [Frame]; the body of the method is
      written in a small state-and-exception monad over that frame.
    - [print] appends structured lines to the [stdout] field of the frame.
    - The [while] loops take fuel; [iSAM_never_out_of_fuel] shows that
      the fuel handed out by [iSAM] is never used up. *)

From Stdlib Require Import List ZArith QArith Lia Bool Arith.
From Stdlib Require Import Reals Lra.
Import ListNotations.

Open Scope nat_scope.

(** ** Linear algebra on 3-vectors and 3x3 matrices (numpy) *)

Module Linalg.
Local Open Scope R_scope.

Definition Vec3 : Type := (R * R * R)%type.
(** A matrix is the triple of its rows. *)
Definition Mat3 : Type := (Vec3 * Vec3 * Vec3)%type.

Definition dot (a b : Vec3) : R :=
  let '(a0, a1, a2) := a in
  let '(b0, b1, b2) := b in
  a0 * b0 + a1 * b1 + a2 * b2.

Definition col (j : nat) (m : Mat3) : Vec3 :=
  let '((m00, m01, m02), (m10, m11, m12), (m20, m21, m22)) := m in
  match j with
  | O => (m00, m10, m20)
  | S O => (m01, m11, m21)
  | _ => (m02, m12, m22)
  end.

(** [a @ b] of numpy on two 3x3 arrays. *)
Definition matmul (a b : Mat3) : Mat3 :=
  let '(r0, r1, r2) := a in
  let row r := (dot r (col 0 b), dot r (col 1 b), dot r (col 2 b)) in
  (row r0, row r1, row r2).

Definition identity : Mat3 := ((1, 0, 0), (0, 1, 0), (0, 0, 1)).

(** The three single-axis rotations, as the textbook matrices. *)
Definition Rx (a : R) : Mat3 :=
  ((1, 0, 0), (0, cos a, - sin a), (0, sin a, cos a)).
Definition Ry (a : R) : Mat3 :=
  ((cos a, 0, sin a), (0, 1, 0), (- sin a, 0, cos a)).
Definition Rz (a : R) : Mat3 :=
  ((cos a, - sin a, 0), (sin a, cos a, 0), (0, 0, 1)).

End Linalg.

(** ** [scipy.spatial.transform.Rotation]

    A rotation is stored as a unit quaternion [(x, y, z, w)], scalar
    last.  [from_rotvec] maps a rotation vector to the quaternion
    [(scale * v, cos (angle / 2))] with [angle] the norm of [v] and
    [scale = sin (angle / 2) / angle]; at the zero vector the scale is the
    limit [1/2] (scipy evaluates the series of the same function for
    small angles).  [as_matrix] is the usual quaternion-to-matrix map. *)

Module Rotation.
Import Linalg.
Local Open Scope R_scope.

Definition Quat : Type := (R * R * R * R)%type.

Definition from_rotvec (v : Vec3) : Quat :=
  let '(v0, v1, v2) := v in
  let angle := sqrt (v0 * v0 + v1 * v1 + v2 * v2) in
  let scale :=
    if Req_dec_T angle 0 then 1 / 2 else sin (angle / 2) / angle in
  (scale * v0, scale * v1, scale * v2, cos (angle / 2)).

Definition as_matrix (q : Quat) : Mat3 :=
  let '(x, y, z, w) := q in
  let x2 := x * x in let y2 := y * y in
  let z2 := z * z in let w2 := w * w in
  let xy := x * y in let zw := z * w in
  let xz := x * z in let yw := y * w in
  let yz := y * z in let xw := x * w in
  ((x2 - y2 - z2 + w2, 2 * (xy - zw), 2 * (xz + yw)),
   (2 * (xy + zw), - x2 + y2 - z2 + w2, 2 * (yz - xw)),
   (2 * (xz - yw), 2 * (yz + xw), - x2 - y2 + z2 + w2)).

End Rotation.

(** ** The part of gtsam the script uses *)

Module Gtsam.
Import Linalg.

Definition Point3 : Type := Vec3.
Definition Point3_new (x y z : R) : Point3 := (x, y, z).

Record Rot3 : Type := Rot3_new { matrix : Mat3 }.
Record Pose3 : Type := Pose3_new { rotation : Rot3; translation : Point3 }.

(** [NavState(pose, v)] keeps the attitude, the position and the
    velocity; [pose()] and [velocity()] give them back. *)
Record NavState : Type :=
  NavState_mk { attitude : Rot3; position : Point3; velocity : Point3 }.
Definition NavState_new (p : Pose3) (v : Point3) : NavState :=
  NavState_mk (rotation p) (translation p) v.
Definition pose (s : NavState) : Pose3 :=
  Pose3_new (attitude s) (position s).

(** [gtsam.symbol_shorthand]: a key is a letter and an index. *)
Inductive Key : Type := X (i : nat) | V (i : nat) | B (i : nat).

Definition Key_eqb (a b : Key) : bool :=
  match a, b with
  | X i, X j | V i, V j | B i, B j => Nat.eqb i j
  | _, _ => false
  end.

Record ConstantBias : Type :=
  ConstantBias_new { accelerometer : Vec3; gyroscope : Vec3 }.

(** [noiseModel.Isotropic.Sigma(dim, sigma)]. *)
Record NoiseModel : Type := Isotropic_Sigma { dim : nat; sigma : R }.

Record PreintegrationParams : Type := MakeSharedU { g : R }.

(** [PreintegratedImuMeasurements(params, bias)]: nothing integrated yet. *)
Record PreintegratedImuMeasurements : Type :=
  PreintegratedImuMeasurements_new {
    p_params : PreintegrationParams;
    p_bias : ConstantBias;
    p_measurements : list (Vec3 * Vec3 * R) }.

(** The factors a [NonlinearFactorGraph] of this program can hold: the
    two priors the script builds, and gtsam's preintegration factor
    [ImuFactor(pose_i, vel_i, pose_j, vel_j, bias, pim)]. *)
Inductive Factor : Type :=
| PriorFactorPose3 (k : Key) (p : Pose3) (n : NoiseModel)
| PriorFactorPoint3 (k : Key) (p : Point3) (n : NoiseModel)
| ImuFactor (pose_i vel_i pose_j vel_j bias : Key)
            (pim : PreintegratedImuMeasurements).

Definition is_prior (f : Factor) : bool :=
  match f with
  | PriorFactorPose3 _ _ _ | PriorFactorPoint3 _ _ _ => true
  | ImuFactor _ _ _ _ _ _ => false
  end.

Definition is_preintegration (f : Factor) : bool :=
  match f with
  | ImuFactor _ _ _ _ _ _ => true
  | _ => false
  end.

Definition NonlinearFactorGraph : Type := list Factor.
Definition NonlinearFactorGraph_new : NonlinearFactorGraph := [].
(** [graph.add(factor)] appends. *)
Definition add (gr : NonlinearFactorGraph) (f : Factor)
  : NonlinearFactorGraph := gr ++ [f].

Inductive Value : Type :=
| VPose3 (p : Pose3)
| VPoint3 (p : Point3)
| VBias (b : ConstantBias).

(** [Values]: keys in insertion order, no key twice. *)
Definition Values : Type := list (Key * Value).
Definition Values_new : Values := [].

Fixpoint at_key (vs : Values) (k : Key) : option Value :=
  match vs with
  | [] => None
  | (k', v) :: rest => if Key_eqb k' k then Some v else at_key rest k
  end.

Definition exists_key (vs : Values) (k : Key) : bool :=
  match at_key vs k with Some _ => true | None => false end.

(** [ISAM2]: the factors it has been given, its current estimate of
    every variable it has been given, and how often [update] was called.
    [ISAM2()] holds nothing.  [update] is the only method that changes
    the solver; the optimisation it runs is not modelled and is taken as
    the argument [solve]. *)
Record ISAM2 : Type :=
  ISAM2_mk { factors : NonlinearFactorGraph; theta : Values; updates : nat }.
Definition ISAM2_new : ISAM2 := ISAM2_mk [] [] 0.
Definition update (solve : NonlinearFactorGraph -> Values -> Values)
  (s : ISAM2) (gr : NonlinearFactorGraph) (vs : Values) : ISAM2 :=
  ISAM2_mk (factors s ++ gr)
           (solve (factors s ++ gr) (theta s ++ vs))
           (S (updates s)).
(** The solver's current estimate of one variable, if it has one. *)
Definition calculateEstimate (s : ISAM2) (k : Key) : option Value :=
  at_key (theta s) k.

End Gtsam.

(** ** Exceptions and results *)

Inductive Exn : Type :=
| IndexError
| ValuesKeyAlreadyExists (k : Gtsam.Key).

Inductive result (A : Type) : Type :=
| Ok (a : A)
| Raise (e : Exn).
Arguments Ok {A} a.
Arguments Raise {A} e.

Definition rbind {A B} (r : result A) (k : A -> result B) : result B :=
  match r with
  | Ok a => k a
  | Raise e => Raise e
  end.

(** [series[i]] for [i >= 0]: out of range raises. *)
Definition py_index {A} (series : list A) (i : nat) : result A :=
  match nth_error series i with
  | Some a => Ok a
  | None => Raise IndexError
  end.

(** [Values.insert(key, value)] throws when the key is already there. *)
Definition insert (vs : Gtsam.Values) (k : Gtsam.Key) (v : Gtsam.Value)
  : result Gtsam.Values :=
  if Gtsam.exists_key vs k then Raise (ValuesKeyAlreadyExists k)
  else Ok (vs ++ [(k, v)]).

(** ** The object [AUViSAM] *)

(** What the data loader hands over, column by column. *)
Record IekfStates : Type := {
  x : list R; y : list R; z : list R;
  u : list R; v : list R; r : list R;
  phi : list R; theta : list R; psi : list R }.

Record Imu : Type := {
  omega_x : list R; omega_y : list R; omega_z : list R;
  ax : list R; ay : list R; az : list R }.

Record Logs : Type := {
  log_states : IekfStates;
  log_state_times : list Z;
  log_imu_times : list Z;
  log_imu : Imu;
  log_depth_times : list Z;
  log_depth : list R }.

Record AUViSAM : Type := {
  dt : R;
  priorNoise : Gtsam.NoiseModel;
  velNoise : Gtsam.NoiseModel;
  params : Gtsam.PreintegrationParams;
  pim : Gtsam.PreintegratedImuMeasurements;
  iekf_states : IekfStates;
  iekf_times : list Z;
  imu_times : list Z;
  imu : Imu;
  depth_times : list Z;
  depth : list R }.

Definition bias_literal : Gtsam.ConstantBias :=
  let acc_bias := (67 / 1000, 115 / 1000, 320 / 1000)%R in
  let gyro_bias := (67 / 1000, 115 / 1000, 320 / 1000)%R in
  Gtsam.ConstantBias_new acc_bias gyro_bias.

Definition BIAS_KEY : Gtsam.Key := Gtsam.B 0.

(** [AUViSAM.__init__]. *)
Definition init (logs : Logs) : AUViSAM :=
  let bias := bias_literal in
  let params := Gtsam.MakeSharedU (981 / 100)%R in
  {| dt := (1 / 1000000)%R;
     priorNoise := Gtsam.Isotropic_Sigma 6 (1 / 10)%R;
     velNoise := Gtsam.Isotropic_Sigma 3 (1 / 10)%R;
     params := params;
     pim := Gtsam.PreintegratedImuMeasurements_new params bias [];
     iekf_states := log_states logs;
     iekf_times := log_state_times logs;
     imu_times := log_imu_times logs;
     imu := log_imu logs;
     depth_times := log_depth_times logs;
     depth := log_depth logs |}.

(** ** [AUViSAM.get_nav_state] *)

Notation "a <~ e ;; k" := (rbind e (fun a => k))
  (at level 61, e at next level, right associativity).

Definition get_nav_state (self : AUViSAM) (time : nat)
  : result Gtsam.NavState :=
  x <~ py_index (x (iekf_states self)) time ;;
  y <~ py_index (y (iekf_states self)) time ;;
  z <~ py_index (z (iekf_states self)) time ;;
  u <~ py_index (u (iekf_states self)) time ;;
  v <~ py_index (v (iekf_states self)) time ;;
  r <~ py_index (r (iekf_states self)) time ;;
  phi <~ py_index (phi (iekf_states self)) time ;;
  theta <~ py_index (theta (iekf_states self)) time ;;
  psi <~ py_index (psi (iekf_states self)) time ;;
  let r1 := Rotation.from_rotvec (phi, 0, 0)%R in
  let r2 := Rotation.from_rotvec (0, theta, 0)%R in
  let r3 := Rotation.from_rotvec (0, 0, psi)%R in
  let rot_mat :=
    Linalg.matmul
      (Linalg.matmul (Rotation.as_matrix r1) (Rotation.as_matrix r2))
      (Rotation.as_matrix r3) in
  let p := Gtsam.Point3_new x y z in
  let v := Gtsam.Point3_new u v r in
  let pose := Gtsam.Pose3_new (Gtsam.Rot3_new rot_mat) p in
  let state := Gtsam.NavState_new pose v in
  Ok state.

(** ** The frame of [iSAM] and its monad *)

(** What [print] writes; a timestamp is carried as the logged integer. *)
Inductive Line : Type :=
| StateTime (t : Z)
| ImuTime (t : Z)
| MeasuredOmega (w : Linalg.Vec3)
| MeasuredAcc (a : Linalg.Vec3)
| Blank.

(** The locals of [iSAM].  [graph] and [initial] are bound afresh at the
    top of every iteration; before the first one they are represented by
    empty containers. *)
Record Frame : Type := {
  isam : Gtsam.ISAM2;
  state_idx : nat;
  camera_idx : nat;
  imu_idx : nat;
  time_elapsed : Z;
  imu_time_elapsed : Z;
  graph : Gtsam.NonlinearFactorGraph;
  initial : Gtsam.Values;
  stdout : list Line }.

Definition with_state_idx (n : nat) (f : Frame) : Frame :=
  {| isam := isam f; state_idx := n; camera_idx := camera_idx f;
     imu_idx := imu_idx f; time_elapsed := time_elapsed f;
     imu_time_elapsed := imu_time_elapsed f; graph := graph f;
     initial := initial f; stdout := stdout f |}.

Definition with_imu_idx (n : nat) (f : Frame) : Frame :=
  {| isam := isam f; state_idx := state_idx f; camera_idx := camera_idx f;
     imu_idx := n; time_elapsed := time_elapsed f;
     imu_time_elapsed := imu_time_elapsed f; graph := graph f;
     initial := initial f; stdout := stdout f |}.

Definition with_graph (gr : Gtsam.NonlinearFactorGraph) (f : Frame)
  : Frame :=
  {| isam := isam f; state_idx := state_idx f; camera_idx := camera_idx f;
     imu_idx := imu_idx f; time_elapsed := time_elapsed f;
     imu_time_elapsed := imu_time_elapsed f; graph := gr;
     initial := initial f; stdout := stdout f |}.

Definition with_initial (vs : Gtsam.Values) (f : Frame) : Frame :=
  {| isam := isam f; state_idx := state_idx f; camera_idx := camera_idx f;
     imu_idx := imu_idx f; time_elapsed := time_elapsed f;
     imu_time_elapsed := imu_time_elapsed f; graph := graph f;
     initial := vs; stdout := stdout f |}.

Definition with_stdout (out : list Line) (f : Frame) : Frame :=
  {| isam := isam f; state_idx := state_idx f; camera_idx := camera_idx f;
     imu_idx := imu_idx f; time_elapsed := time_elapsed f;
     imu_time_elapsed := imu_time_elapsed f; graph := graph f;
     initial := initial f; stdout := out |}.

(** How a piece of the method ends: normally, with an exception (the
    frame is the one at the [raise]), or with the model's fuel used up. *)
Inductive outcome (A : Type) : Type :=
| Val (a : A) (f : Frame)
| Exc (e : Exn) (f : Frame)
| OutOfFuel.
Arguments Val {A} a f.
Arguments Exc {A} e f.
Arguments OutOfFuel {A}.

Definition M (A : Type) : Type := Frame -> outcome A.

Definition ret {A} (a : A) : M A := fun f => Val a f.

Definition bind {A B} (m : M A) (k : A -> M B) : M B :=
  fun f =>
    match m f with
    | Val a f' => k a f'
    | Exc e f' => Exc e f'
    | OutOfFuel => OutOfFuel
    end.

Notation "a <- m ;; k" := (bind m (fun a => k))
  (at level 61, m at next level, right associativity).
Notation "m ;; k" := (bind m (fun _ => k))
  (at level 61, right associativity).

Definition get {A} (field : Frame -> A) : M A := fun f => Val (field f) f.
Definition modify (g : Frame -> Frame) : M unit := fun f => Val tt (g f).
Definition out_of_fuel {A} : M A := fun _ => OutOfFuel.

(** Run a computation that can only raise. *)
Definition lift {A} (r : result A) : M A :=
  fun f =>
    match r with
    | Ok a => Val a f
    | Raise e => Exc e f
    end.

Definition print (l : Line) : M unit :=
  modify (fun f => with_stdout (stdout f ++ [l]) f).

(** [graph.add(factor)] on the local [graph]. *)
Definition graph_add (fa : Gtsam.Factor) : M unit :=
  modify (fun f => with_graph (Gtsam.add (graph f) fa) f).

(** [initial.insert(key, value)] on the local [initial]. *)
Definition initial_insert (k : Gtsam.Key) (v : Gtsam.Value) : M unit :=
  vs <- get initial ;;
  vs' <- lift (insert vs k v) ;;
  modify (with_initial vs').

(** ** [AUViSAM.iSAM] *)

(** The inner [while] of lines 136-153: one IMU sample per turn. *)
Fixpoint align (fuel : nat) (self : AUViSAM) : M unit :=
  match fuel with
  | O => out_of_fuel
  | S fuel' =>
      i <- get state_idx ;;
      k <- get imu_idx ;;
      t_state <- lift (py_index (iekf_times self) i) ;;
      t_imu <- lift (py_index (imu_times self) k) ;;
      if (t_state >? t_imu)%Z then
        omega_x <- lift (py_index (omega_x (imu self)) k) ;;
        omega_y <- lift (py_index (omega_y (imu self)) k) ;;
        omega_z <- lift (py_index (omega_z (imu self)) k) ;;
        lin_acc_x <- lift (py_index (ax (imu self)) k) ;;
        lin_acc_y <- lift (py_index (ay (imu self)) k) ;;
        lin_acc_z <- lift (py_index (az (imu self)) k) ;;
        let measuredOmega := (omega_x, omega_y, omega_z) in
        let measuredAcc := (lin_acc_x, lin_acc_y, lin_acc_z) in
        t <- lift (py_index (imu_times self) k) ;;
        print (ImuTime t) ;;
        print (MeasuredOmega measuredOmega) ;;
        print (MeasuredAcc measuredAcc) ;;
        print Blank ;;
        modify (fun f => with_imu_idx (imu_idx f + 1) f) ;;
        align fuel' self
      else ret tt
  end.

(** [dt = t_i - t_prev; dt *= 1e-9], in exact arithmetic. *)
Definition scaled_dt (t_i t_prev : Z) : Q :=
  let dt := inject_Z (t_i - t_prev) in
  (dt * (1 # 1000000000))%Q.

(** One turn of the outer [while]: lines 99-156. *)
Definition iteration (self : AUViSAM) : M unit :=
  i <- get state_idx ;;
  state <- lift (get_nav_state self i) ;;
  modify (with_graph Gtsam.NonlinearFactorGraph_new) ;;
  modify (with_initial Gtsam.Values_new) ;;
  if i =? 0 then
    let priorPoseFactor :=
      Gtsam.PriorFactorPose3 (Gtsam.X i) (Gtsam.pose state)
                             (priorNoise self) in
    graph_add priorPoseFactor ;;
    let priorVelFactor :=
      Gtsam.PriorFactorPoint3 (Gtsam.V i) (Gtsam.velocity state)
                              (velNoise self) in
    graph_add priorVelFactor ;;
    initial_insert (Gtsam.X i) (Gtsam.VPose3 (Gtsam.pose state)) ;;
    initial_insert (Gtsam.V i) (Gtsam.VPoint3 (Gtsam.velocity state)) ;;
    let bias := bias_literal in
    initial_insert BIAS_KEY (Gtsam.VBias bias) ;;
    modify (fun f => with_state_idx (state_idx f + 1) f)
  else
    t_i <- lift (py_index (iekf_times self) i) ;;
    t_prev <- lift (py_index (iekf_times self) (i - 1)) ;;
    let dt := scaled_dt t_i t_prev in
    if Qle_bool dt 0%Q then
      (* state_idx += 1; continue *)
      modify (fun f => with_state_idx (state_idx f + 1) f)
    else
      prev_state <- lift (get_nav_state self (i - 1)) ;;
      initial_insert (Gtsam.X i) (Gtsam.VPose3 (Gtsam.pose prev_state)) ;;
      initial_insert (Gtsam.V i)
                     (Gtsam.VPoint3 (Gtsam.velocity prev_state)) ;;
      t <- lift (py_index (iekf_times self) i) ;;
      print (StateTime t) ;;
      align (S (length (imu_times self))) self ;;
      modify (fun f => with_state_idx (state_idx f + 1) f).

(** The outer [while state_idx < 100]. *)
Fixpoint while_loop (fuel : nat) (self : AUViSAM) : M unit :=
  match fuel with
  | O => out_of_fuel
  | S fuel' =>
      i <- get state_idx ;;
      if i <? 100 then iteration self ;; while_loop fuel' self
      else ret tt
  end.

(** The frame after lines 89-96. *)
Definition entry_frame : Frame :=
  {| isam := Gtsam.ISAM2_new;
     state_idx := 0; camera_idx := 0; imu_idx := 0;
     time_elapsed := 0; imu_time_elapsed := 0;
     graph := Gtsam.NonlinearFactorGraph_new;
     initial := Gtsam.Values_new;
     stdout := [] |}.

Definition iSAM (self : AUViSAM) : outcome unit :=
  while_loop 101 self entry_frame.

(** [main]. *)
Definition main (logs : Logs) : outcome unit :=
  let AUV_SLAM := init logs in
  iSAM AUV_SLAM.

(** ** Runs looked at from outside *)

(** The frame an outcome ends in. *)
Definition final_frame {A} (o : outcome A) : option Frame :=
  match o with
  | Val _ f | Exc _ f => Some f
  | OutOfFuel => None
  end.

Definition returns {A} (o : outcome A) : bool :=
  match o with Val _ _ => true | _ => false end.

(** The frames at the head of the outer loop, in order: the frame the
    loop is entered with, then the frame after each completed turn.  A
    turn that raises ends the list. *)
Fixpoint heads (fuel : nat) (self : AUViSAM) (f : Frame) : list Frame :=
  match fuel with
  | O => []
  | S fuel' =>
      f :: (if state_idx f <? 100 then
              match iteration self f with
              | Val _ f' => heads fuel' self f'
              | _ => []
              end
            else [])
  end.

Definition iSAM_heads (self : AUViSAM) : list Frame :=
  heads 101 self entry_frame.

(** Logs to try things on: [n] epochs [period] apart starting at 0, the
    vehicle at rest, and [m] IMU samples [period] apart starting at
    [offset]. *)
Definition still (n : nat) : IekfStates :=
  let c := repeat 0%R n in
  {| x := c; y := c; z := c; u := c; v := c; r := c;
     phi := c; theta := c; psi := c |}.

Definition quiet (m : nat) : Imu :=
  let c := repeat 0%R m in
  {| omega_x := c; omega_y := c; omega_z := c; ax := c; ay := c; az := c |}.

Definition ticks (n : nat) (period offset : Z) : list Z :=
  map (fun k => (period * Z.of_nat k + offset)%Z) (seq 0 n).

Definition regular_logs (n m : nat) (period offset : Z) : Logs :=
  {| log_states := still n;
     log_state_times := ticks n period 0;
     log_imu_times := ticks m period offset;
     log_imu := quiet m;
     log_depth_times := [];
     log_depth := [] |}.

(** ** Notions used to state the properties *)

(** The external-state series has [n] rows. *)
Definition rows (s : IekfStates) (n : nat) : Prop :=
  length (x s) = n /\ length (y s) = n /\ length (z s) = n /\
  length (u s) = n /\ length (v s) = n /\ length (r s) = n /\
  length (phi s) = n /\ length (theta s) = n /\ length (psi s) = n.

(** The navigation state the adapter builds from row [time]. *)
Definition row_state (s : IekfStates) (time : nat) : Gtsam.NavState :=
  let at_row c := nth time (c s) 0%R in
  Gtsam.NavState_mk
    (Gtsam.Rot3_new
       (Linalg.matmul
          (Linalg.matmul (Linalg.Rx (at_row phi)) (Linalg.Ry (at_row theta)))
          (Linalg.Rz (at_row psi))))
    (at_row x, at_row y, at_row z)
    (at_row u, at_row v, at_row r).

(** What one turn of the inner loop prints for sample [k]; it raises
    when one of the IMU columns has no row [k]. *)
Definition sample_lines (self : AUViSAM) (k : nat) : result (list Line) :=
  omega_x <~ py_index (omega_x (imu self)) k ;;
  omega_y <~ py_index (omega_y (imu self)) k ;;
  omega_z <~ py_index (omega_z (imu self)) k ;;
  lin_acc_x <~ py_index (ax (imu self)) k ;;
  lin_acc_y <~ py_index (ay (imu self)) k ;;
  lin_acc_z <~ py_index (az (imu self)) k ;;
  t <~ py_index (imu_times self) k ;;
  Ok [ImuTime t;
      MeasuredOmega (omega_x, omega_y, omega_z);
      MeasuredAcc (lin_acc_x, lin_acc_y, lin_acc_z);
      Blank].

(** The frame after sample [imu_idx f] has been consumed. *)
Definition consume (ls : list Line) (f : Frame) : Frame :=
  with_imu_idx (imu_idx f + 1) (with_stdout (stdout f ++ ls) f).

(** The runs of the inner loop from frame [f] against the epoch
    timestamp [t_state], as a relation between [f] and how the loop ends. *)
Inductive aligns (self : AUViSAM) (t_state : Z)
  : Frame -> outcome unit -> Prop :=
| aligns_stop f t_imu :
    nth_error (imu_times self) (imu_idx f) = Some t_imu ->
    (t_state <= t_imu)%Z ->
    aligns self t_state f (Val tt f)
| aligns_exhausted f :
    length (imu_times self) <= imu_idx f ->
    aligns self t_state f (Exc IndexError f)
| aligns_short f t_imu :
    nth_error (imu_times self) (imu_idx f) = Some t_imu ->
    (t_imu < t_state)%Z ->
    sample_lines self (imu_idx f) = Raise IndexError ->
    aligns self t_state f (Exc IndexError f)
| aligns_consume f t_imu ls o :
    nth_error (imu_times self) (imu_idx f) = Some t_imu ->
    (t_imu < t_state)%Z ->
    sample_lines self (imu_idx f) = Ok ls ->
    aligns self t_state (consume ls f) o ->
    aligns self t_state f o.

(** What the inner loop prints for sample [k] when it consumes it. *)
Definition printed (self : AUViSAM) (k : nat) : list Line :=
  match sample_lines self k with
  | Ok ls => ls
  | Raise _ => []
  end.

(** [f'] is [f] with another cursor and more output, nothing else. *)
Definition only_cursor_and_output (f f' : Frame) : Prop :=
  f' = with_imu_idx (imu_idx f') (with_stdout (stdout f') f).

(** What a run of the inner loop from [f] to [f'] has done. *)
Record alignment (self : AUViSAM) (t_state : Z) (f f' : Frame) : Prop := {
  al_frame : only_cursor_and_output f f';
  al_forward : imu_idx f <= imu_idx f';
  al_earlier : forall j, imu_idx f <= j < imu_idx f' ->
      exists t, nth_error (imu_times self) j = Some t /\ (t < t_state)%Z;
  al_output : stdout f' =
      stdout f ++
      flat_map (printed self) (seq (imu_idx f) (imu_idx f' - imu_idx f)) }.

(** How the inner loop can end: it returns in front of the first
    sample that is not earlier than the epoch, or it raises [IndexError]
    on the stream or on a short IMU column. *)
Definition alignment_end (self : AUViSAM) (t_state : Z)
  (o : outcome unit) (f' : Frame) : Prop :=
  match o with
  | Val _ _ =>
      exists t, nth_error (imu_times self) (imu_idx f') = Some t /\
                (t_state <= t)%Z
  | Exc e _ =>
      e = IndexError /\
      (length (imu_times self) <= imu_idx f' \/
       sample_lines self (imu_idx f') = Raise IndexError)
  | OutOfFuel => False
  end.

(** The frame once [graph] and [initial] have been bound afresh. *)
Definition fresh (f : Frame) : Frame :=
  with_initial Gtsam.Values_new (with_graph Gtsam.NonlinearFactorGraph_new f).

(** The frame at the end of the turn for epoch 0. *)
Definition anchored (self : AUViSAM) (state : Gtsam.NavState) (f : Frame)
  : Frame :=
  with_state_idx 1
    (with_initial
       [(Gtsam.X 0, Gtsam.VPose3 (Gtsam.pose state));
        (Gtsam.V 0, Gtsam.VPoint3 (Gtsam.velocity state));
        (BIAS_KEY, Gtsam.VBias bias_literal)]
       (with_graph
          [Gtsam.PriorFactorPose3 (Gtsam.X 0) (Gtsam.pose state)
                                  (priorNoise self);
           Gtsam.PriorFactorPoint3 (Gtsam.V 0) (Gtsam.velocity state)
                                   (velNoise self)]
          f)).

(** The frame at the end of a skipped turn. *)
Definition skipped (f : Frame) : Frame :=
  with_state_idx (state_idx f + 1) (fresh f).

(** The frame in which the inner loop of a processed turn starts. *)
Definition opened (prev_state : Gtsam.NavState) (t_i : Z) (f : Frame)
  : Frame :=
  with_stdout (stdout f ++ [StateTime t_i])
    (with_initial
       [(Gtsam.X (state_idx f), Gtsam.VPose3 (Gtsam.pose prev_state));
        (Gtsam.V (state_idx f),
         Gtsam.VPoint3 (Gtsam.velocity prev_state))]
       (with_graph Gtsam.NonlinearFactorGraph_new f)).

(** The end of a processed turn, from the end of its inner loop. *)
Definition advance (o : outcome unit) : outcome unit :=
  match o with
  | Val _ f' => Val tt (with_state_idx (state_idx f' + 1) f')
  | Exc e f' => Exc e f'
  | OutOfFuel => OutOfFuel
  end.

(** The ways one turn of the outer loop can go from frame [f]. *)
Inductive turn (self : AUViSAM) (f : Frame) : outcome unit -> Prop :=
| turn_no_state e :
    get_nav_state self (state_idx f) = Raise e ->
    turn self f (Exc e f)
| turn_first state :
    state_idx f = 0 ->
    get_nav_state self 0 = Ok state ->
    turn self f (Val tt (anchored self state f))
| turn_no_time state e :
    state_idx f <> 0 ->
    get_nav_state self (state_idx f) = Ok state ->
    (t_i <~ py_index (iekf_times self) (state_idx f) ;;
     py_index (iekf_times self) (state_idx f - 1)) = Raise e ->
    turn self f (Exc e (fresh f))
| turn_skip state t_i t_prev :
    state_idx f <> 0 ->
    get_nav_state self (state_idx f) = Ok state ->
    nth_error (iekf_times self) (state_idx f) = Some t_i ->
    nth_error (iekf_times self) (state_idx f - 1) = Some t_prev ->
    (t_i - t_prev <= 0)%Z ->
    turn self f (Val tt (skipped f))
| turn_no_prev state t_i t_prev e :
    state_idx f <> 0 ->
    get_nav_state self (state_idx f) = Ok state ->
    nth_error (iekf_times self) (state_idx f) = Some t_i ->
    nth_error (iekf_times self) (state_idx f - 1) = Some t_prev ->
    (0 < t_i - t_prev)%Z ->
    get_nav_state self (state_idx f - 1) = Raise e ->
    turn self f (Exc e (fresh f))
| turn_processed state t_i t_prev prev_state o :
    state_idx f <> 0 ->
    get_nav_state self (state_idx f) = Ok state ->
    nth_error (iekf_times self) (state_idx f) = Some t_i ->
    nth_error (iekf_times self) (state_idx f - 1) = Some t_prev ->
    (0 < t_i - t_prev)%Z ->
    get_nav_state self (state_idx f - 1) = Ok prev_state ->
    aligns self t_i (opened prev_state t_i f) o ->
    turn self f (advance o).

(** What every turn leaves alone or only moves forward. *)
Record forward (f f' : Frame) : Prop := {
  fw_isam : isam f' = isam f;
  fw_cursor : imu_idx f <= imu_idx f';
  fw_output : exists more, stdout f' = stdout f ++ more }.

(** The frame at the head of the loop for epoch [n]. *)
Definition head_at (self : AUViSAM) (n : nat) : Frame :=
  nth n (iSAM_heads self) entry_frame.

Arguments head_at : simpl never.

(** The turn for epoch [n] was run and returned. *)
Definition completed (self : AUViSAM) (n : nat) : Prop :=
  S n < length (iSAM_heads self).

(** The test of line 127 for epoch [n >= 1]. *)
Definition dt_nonpositive (self : AUViSAM) (n : nat) : option bool :=
  match nth_error (iekf_times self) n,
        nth_error (iekf_times self) (n - 1) with
  | Some t_i, Some t_prev => Some (Qle_bool (scaled_dt t_i t_prev) 0%Q)
  | _, _ => None
  end.

Definition skipped_epoch (self : AUViSAM) (n : nat) : bool :=
  (1 <=? n) &&
  match dt_nonpositive self n with Some b => b | None => false end.

Definition processed_epoch (self : AUViSAM) (n : nat) : bool :=
  (1 <=? n) &&
  match dt_nonpositive self n with Some b => negb b | None => false end.

(** The indices of the IMU samples the turn for epoch [n] went over. *)
Definition consumed (self : AUViSAM) (n : nat) : list nat :=
  seq (imu_idx (head_at self n))
      (imu_idx (head_at self (S n)) - imu_idx (head_at self n)).

(** Timestamps in non-decreasing order. *)
Fixpoint nondecreasing (ts : list Z) : bool :=
  match ts with
  | [] => true
  | t :: rest =>
      match rest with
      | [] => true
      | t' :: _ => (t <=? t')%Z && nondecreasing rest
      end
  end.

(** Logs with a repeated epoch timestamp: epochs at [0, 10, 10, 20]. *)
Definition stuttering_logs : Logs :=
  {| log_states := still 4;
     log_state_times := [0; 10; 10; 20]%Z;
     log_imu_times := ticks 4 10 5;
     log_imu := quiet 4;
     log_depth_times := [];
     log_depth := [] |}.

(** The number of rows every column of the external-state series has. *)
Definition state_rows (s : IekfStates) : nat :=
  Nat.min (length (x s)) (Nat.min (length (y s)) (Nat.min (length (z s))
  (Nat.min (length (u s)) (Nat.min (length (v s)) (Nat.min (length (r s))
  (Nat.min (length (phi s)) (Nat.min (length (theta s))
                                     (length (psi s))))))))).

(** The number of rows every column of the IMU series has. *)
Definition imu_rows (m : Imu) : nat :=
  Nat.min (length (omega_x m)) (Nat.min (length (omega_y m))
  (Nat.min (length (omega_z m)) (Nat.min (length (ax m))
  (Nat.min (length (ay m)) (length (az m)))))).

(** Transpose and determinant of a 3x3 matrix. *)
Definition transpose (m : Linalg.Mat3) : Linalg.Mat3 :=
  (Linalg.col 0 m, Linalg.col 1 m, Linalg.col 2 m).

Definition det (m : Linalg.Mat3) : R :=
  let '((a, b, c), (d, e, f), (g, h, i)) := m in
  (a * (e * i - f * h) - b * (d * i - f * g) + c * (d * h - e * g))%R.

(** A proper rotation: orthonormal, with determinant one. *)
Definition proper_rotation (m : Linalg.Mat3) : Prop :=
  Linalg.matmul m (transpose m) = Linalg.identity /\
  Linalg.matmul (transpose m) m = Linalg.identity /\
  det m = 1%R.

(** What the turn for epoch [n] of a run has printed. *)
Definition epoch_output (self : AUViSAM) (n : nat) : list Line :=
  if processed_epoch self n then
    match nth_error (iekf_times self) n with
    | Some t_n => StateTime t_n :: flat_map (printed self) (consumed self n)
    | None => []
    end
  else [].

(** The timestamps on the [IMU time] lines of an output, in order. *)
Fixpoint imu_time_lines (out : list Line) : list Z :=
  match out with
  | [] => []
  | ImuTime t :: rest => t :: imu_time_lines rest
  | _ :: rest => imu_time_lines rest
  end.



(** * Properties *)

(** Split an equation between tuples into its components. *)
Ltac componentwise :=
  repeat match goal with
         | |- (_, _) = (_, _) => apply f_equal2
         end.

(** ** Lookups *)

Lemma py_index_Ok {A} (l : list A) (i : nat) (a : A) :
  py_index l i = Ok a <-> nth_error l i = Some a.
Proof.
  unfold py_index. destruct (nth_error l i); split; congruence.
Qed.

Lemma py_index_Raise {A} (l : list A) (i : nat) (e : Exn) :
  py_index l i = Raise e <-> e = IndexError /\ length l <= i.
Proof.
  unfold py_index. destruct (nth_error l i) eqn:E.
  - split; [discriminate|]. intros [_ H].
    apply nth_error_None in H. congruence.
  - apply nth_error_None in E. split.
    + intros H. injection H as <-. auto.
    + intros [-> _]. reflexivity.
Qed.

Lemma py_index_in_range {A} (l : list A) (i : nat) :
  i < length l -> exists a, py_index l i = Ok a.
Proof.
  intros H. unfold py_index. destruct (nth_error l i) eqn:E; eauto.
  apply nth_error_None in E. lia.
Qed.

(** The test on the scaled difference is the test on the difference. *)
Lemma scaled_dt_nonpositive (t_i t_prev : Z) :
  Qle_bool (scaled_dt t_i t_prev) 0%Q = (t_i - t_prev <=? 0)%Z.
Proof.
  unfold scaled_dt, Qle_bool, Qmult, inject_Z. simpl.
  rewrite Z.mul_1_r, Z.mul_1_r. reflexivity.
Qed.

(** ** Single-axis rotations from rotation vectors *)

Module RotationFacts.
Import Linalg Rotation.
Local Open Scope R_scope.

(** The quaternion of a rotation vector along one axis: the component
    on that axis is [sin (a / 2)], the scalar part is [cos (a / 2)]. *)
Lemma half_angle (a : R) :
  let angle := sqrt (a * a) in
  (if Req_dec_T angle 0 then 1 / 2 else sin (angle / 2) / angle) * a
    = sin (a / 2)
  /\ cos (angle / 2) = cos (a / 2).
Proof.
  intros angle.
  assert (Habs : angle = Rabs a).
  { unfold angle. fold (Rsqr a). apply sqrt_Rsqr_abs. }
  destruct (Req_dec_T angle 0) as [Hz | Hnz].
  - assert (a = 0).
    { rewrite Habs in Hz. destruct (Req_dec a 0) as [|Hn]; [assumption|].
      apply Rabs_no_R0 in Hn. contradiction. }
    subst a. rewrite Hz. split.
    + replace (0 / 2) with 0 by lra. rewrite sin_0. lra.
    + reflexivity.
  - rewrite Habs in *. unfold Rabs in *.
    destruct (Rcase_abs a) as [Hneg | Hpos].
    + split.
      * replace (- a / 2) with (- (a / 2)) by lra. rewrite sin_neg.
        field. lra.
      * replace (- a / 2) with (- (a / 2)) by lra. apply cos_neg.
    + split.
      * field. exact Hnz.
      * reflexivity.
Qed.

Lemma cos_double_half (a : R) :
  cos (a / 2) * cos (a / 2) - sin (a / 2) * sin (a / 2) = cos a.
Proof.
  replace (cos a) with (cos (2 * (a / 2))) by (f_equal; lra).
  rewrite cos_2a. reflexivity.
Qed.

Lemma sin_double_half (a : R) :
  2 * (sin (a / 2) * cos (a / 2)) = sin a.
Proof.
  replace (sin a) with (sin (2 * (a / 2))) by (f_equal; lra).
  rewrite sin_2a. ring.
Qed.

Lemma unit_half (a : R) :
  sin (a / 2) * sin (a / 2) + cos (a / 2) * cos (a / 2) = 1.
Proof.
  pose proof (sin2_cos2 (a / 2)) as H. unfold Rsqr in H. exact H.
Qed.

Ltac axis_rotation a :=
  unfold from_rotvec, as_matrix;
  repeat rewrite Rmult_0_l; repeat rewrite Rplus_0_r;
  repeat rewrite Rplus_0_l;
  destruct (half_angle a) as [Hs Hc]; cbv zeta in Hs, Hc;
  rewrite Hc;
  repeat rewrite Rmult_0_r;
  rewrite Hs;
  pose proof (cos_double_half a); pose proof (sin_double_half a);
  pose proof (unit_half a);
  componentwise; lra.

Lemma from_rotvec_x (a : R) : as_matrix (from_rotvec (a, 0, 0)) = Rx a.
Proof. unfold Rx. axis_rotation a. Qed.

Lemma from_rotvec_y (a : R) : as_matrix (from_rotvec (0, a, 0)) = Ry a.
Proof. unfold Ry. axis_rotation a. Qed.

Lemma from_rotvec_z (a : R) : as_matrix (from_rotvec (0, 0, a)) = Rz a.
Proof. unfold Rz. axis_rotation a. Qed.

End RotationFacts.

(** ** The Epoch State Adapter *)

Module AdapterFacts.
Import Linalg.
Local Open Scope R_scope.

Lemma matmul_assoc (a b c : Mat3) :
  matmul (matmul a b) c = matmul a (matmul b c).
Proof.
  destruct a as [[[[a00 a01] a02] [[a10 a11] a12]] [[a20 a21] a22]].
  destruct b as [[[[b00 b01] b02] [[b10 b11] b12]] [[b20 b21] b22]].
  destruct c as [[[[c00 c01] c02] [[c10 c11] c12]] [[c20 c21] c22]].
  unfold matmul, dot, col. componentwise; ring.
Qed.

Lemma matmul_identity_l (a : Mat3) : matmul identity a = a.
Proof.
  destruct a as [[[[a00 a01] a02] [[a10 a11] a12]] [[a20 a21] a22]].
  unfold matmul, identity, dot, col. componentwise; ring.
Qed.

Lemma Rx_0 : Rx 0 = identity.
Proof. unfold Rx, identity. rewrite cos_0, sin_0, Ropp_0. reflexivity. Qed.

Lemma Ry_0 : Ry 0 = identity.
Proof. unfold Ry, identity. rewrite cos_0, sin_0, Ropp_0. reflexivity. Qed.

Lemma Rz_0 : Rz 0 = identity.
Proof. unfold Rz, identity. rewrite cos_0, sin_0, Ropp_0. reflexivity. Qed.

End AdapterFacts.

Lemma py_index_nth {A} (l : list A) (i : nat) (d : A) :
  i < length l -> py_index l i = Ok (nth i l d).
Proof.
  intros H. unfold py_index. rewrite (nth_error_nth' l d H). reflexivity.
Qed.

Lemma get_nav_state_in_range (self : AUViSAM) (n time : nat) :
  rows (iekf_states self) n -> time < n ->
  get_nav_state self time = Ok (row_state (iekf_states self) time).
Proof.
  intros (Hx & Hy & Hz & Hu & Hv & Hr & Hphi & Hth & Hpsi) Hlt.
  unfold get_nav_state.
  rewrite (py_index_nth (x _) time 0%R) by lia.
  rewrite (py_index_nth (y _) time 0%R) by lia.
  rewrite (py_index_nth (z _) time 0%R) by lia.
  rewrite (py_index_nth (u _) time 0%R) by lia.
  rewrite (py_index_nth (v _) time 0%R) by lia.
  rewrite (py_index_nth (r _) time 0%R) by lia.
  rewrite (py_index_nth (phi _) time 0%R) by lia.
  rewrite (py_index_nth (theta _) time 0%R) by lia.
  rewrite (py_index_nth (psi _) time 0%R) by lia.
  cbn [rbind].
  rewrite RotationFacts.from_rotvec_x, RotationFacts.from_rotvec_y,
    RotationFacts.from_rotvec_z.
  reflexivity.
Qed.

(** Outside the series the adapter raises. *)
Lemma get_nav_state_out_of_range (self : AUViSAM) (n time : nat) :
  rows (iekf_states self) n -> n <= time ->
  get_nav_state self time = Raise IndexError.
Proof.
  intros (Hx & _) Hle. unfold get_nav_state.
  assert (H : py_index (x (iekf_states self)) time = Raise IndexError).
  { apply py_index_Raise. split; [reflexivity | lia]. }
  rewrite H. reflexivity.
Qed.

(** C5.  For an epoch index inside the loaded series, the orientation
    of the state returned by [get_nav_state] is the matrix product
    [Rx(phi) . Ry(theta) . Rz(psi)] of the three single-axis rotations of
    that row's roll, pitch and yaw, in that order (the product is
    associative, so the chain can be read from either end); when the
    three angles are zero it is the identity. *)
Theorem get_nav_state_orientation (self : AUViSAM) (n time : nat) :
  rows (iekf_states self) n -> time < n ->
  let a_phi := nth time (phi (iekf_states self)) 0%R in
  let a_theta := nth time (theta (iekf_states self)) 0%R in
  let a_psi := nth time (psi (iekf_states self)) 0%R in
  exists state,
    get_nav_state self time = Ok state /\
    Gtsam.matrix (Gtsam.rotation (Gtsam.pose state))
      = Linalg.matmul (Linalg.matmul (Linalg.Rx a_phi) (Linalg.Ry a_theta))
                      (Linalg.Rz a_psi) /\
    Gtsam.matrix (Gtsam.rotation (Gtsam.pose state))
      = Linalg.matmul (Linalg.Rx a_phi)
                      (Linalg.matmul (Linalg.Ry a_theta) (Linalg.Rz a_psi)) /\
    (a_phi = 0%R -> a_theta = 0%R -> a_psi = 0%R ->
     Gtsam.matrix (Gtsam.rotation (Gtsam.pose state)) = Linalg.identity).
Proof.
  intros Hrows Hlt a_phi a_theta a_psi.
  exists (row_state (iekf_states self) time).
  split; [exact (get_nav_state_in_range self n time Hrows Hlt)|].
  cbn [row_state Gtsam.pose Gtsam.rotation Gtsam.attitude Gtsam.matrix].
  fold a_phi a_theta a_psi.
  split; [reflexivity|]. split.
  - apply AdapterFacts.matmul_assoc.
  - intros -> -> ->.
    rewrite AdapterFacts.Rx_0, AdapterFacts.Ry_0, AdapterFacts.Rz_0.
    rewrite !AdapterFacts.matmul_identity_l. reflexivity.
Qed.

Lemma get_nav_state_orientation_witness :
  rows (iekf_states (init (regular_logs 3 3 10 5))) 3 /\ 1 < 3 /\
  exists state,
    get_nav_state (init (regular_logs 3 3 10 5)) 1 = Ok state /\
    Gtsam.matrix (Gtsam.rotation (Gtsam.pose state)) = Linalg.identity.
Proof.
  assert (Hrows : rows (iekf_states (init (regular_logs 3 3 10 5))) 3).
  { repeat split. }
  assert (Hlt : 1 < 3) by lia.
  split; [exact Hrows|]. split; [exact Hlt|].
  destruct (get_nav_state_orientation
              (init (regular_logs 3 3 10 5)) 3 1 Hrows Hlt)
    as (state & Hget & _ & _ & Hid).
  exists state. split; [exact Hget|].
  apply Hid; reflexivity.
Defined.

(** ** Time alignment: the inner loop *)

Lemma sample_lines_IndexError (self : AUViSAM) (k : nat) (e : Exn) :
  sample_lines self k = Raise e -> e = IndexError.
Proof.
  unfold sample_lines, py_index.
  repeat match goal with
         | |- context [nth_error ?l ?i] => destruct (nth_error l i)
         end; cbn [rbind]; congruence.
Qed.

Lemma align_unfold (fuel : nat) (self : AUViSAM) (f : Frame) :
  align (S fuel) self f =
  match py_index (iekf_times self) (state_idx f) with
  | Raise e => Exc e f
  | Ok t_state =>
      match py_index (imu_times self) (imu_idx f) with
      | Raise e => Exc e f
      | Ok t_imu =>
          if (t_state >? t_imu)%Z then
            match sample_lines self (imu_idx f) with
            | Raise e => Exc e f
            | Ok ls => align fuel self (consume ls f)
            end
          else Val tt f
      end
  end.
Proof.
  cbn [align]. unfold bind, get, lift, ret, sample_lines.
  destruct (py_index (iekf_times self) (state_idx f)); [|reflexivity].
  destruct (py_index (imu_times self) (imu_idx f)); [|reflexivity].
  destruct (_ >? _)%Z; [|reflexivity].
  repeat match goal with
         | |- context [py_index (?c (imu self)) ?k] =>
             destruct (py_index (c (imu self)) k); cbn [rbind];
             [|reflexivity]
         end.
  unfold print, modify, consume. destruct f. cbn.
  rewrite <- !app_assoc. reflexivity.
Qed.

(** With more fuel than there are samples left, [align] follows
    [aligns]; in particular it does not run out of fuel. *)
Lemma align_aligns (self : AUViSAM) (t_state : Z) (fuel : nat) :
  forall f,
    nth_error (iekf_times self) (state_idx f) = Some t_state ->
    length (imu_times self) - imu_idx f < fuel ->
    aligns self t_state f (align fuel self f).
Proof.
  induction fuel as [|fuel IH]; intros f Hts Hfuel; [lia|].
  rewrite align_unfold.
  apply py_index_Ok in Hts. rewrite Hts.
  destruct (py_index (imu_times self) (imu_idx f)) as [t_imu|e] eqn:Hti.
  - apply py_index_Ok in Hti.
    destruct (t_state >? t_imu)%Z eqn:Hcmp.
    + apply Z.gtb_lt in Hcmp.
      destruct (sample_lines self (imu_idx f)) as [ls|e] eqn:Hls.
      * eapply aligns_consume; eauto.
        apply IH.
        -- destruct f; cbn. apply py_index_Ok. exact Hts.
        -- assert (imu_idx f < length (imu_times self)).
           { apply nth_error_Some. congruence. }
           destruct f; cbn in *. lia.
      * pose proof (sample_lines_IndexError _ _ _ Hls); subst e.
        eapply aligns_short; eauto.
    + eapply aligns_stop; eauto.
      destruct (Z.gtb_spec t_state t_imu); [discriminate | assumption].
  - apply py_index_Raise in Hti as [-> Hlen].
    apply aligns_exhausted. exact Hlen.
Qed.

Lemma alignment_refl (self : AUViSAM) (t_state : Z) (f : Frame) :
  alignment self t_state f f.
Proof.
  constructor.
  - unfold only_cursor_and_output. destruct f; reflexivity.
  - lia.
  - intros j Hj. lia.
  - rewrite Nat.sub_diag. cbn. rewrite app_nil_r. reflexivity.
Qed.

Lemma alignment_consume (self : AUViSAM) (t_state : Z) (f f' : Frame)
  (t_imu : Z) (ls : list Line) :
  nth_error (imu_times self) (imu_idx f) = Some t_imu ->
  (t_imu < t_state)%Z ->
  sample_lines self (imu_idx f) = Ok ls ->
  alignment self t_state (consume ls f) f' ->
  alignment self t_state f f'.
Proof.
  intros Ht Hlt Hls [Hfr Hfw Hear Hout].
  change (imu_idx (consume ls f)) with (imu_idx f + 1) in *.
  change (stdout (consume ls f)) with (stdout f ++ ls) in *.
  constructor.
  - unfold only_cursor_and_output in *. rewrite Hfr at 1.
    destruct f; reflexivity.
  - lia.
  - intros j Hj. destruct (Nat.eq_dec j (imu_idx f)) as [-> | Hne].
    + eauto.
    + apply Hear. lia.
  - rewrite Hout.
    replace (imu_idx f' - imu_idx f) with (S (imu_idx f' - (imu_idx f + 1)))
      by lia.
    cbn [seq flat_map]. unfold printed at 2. rewrite Hls.
    rewrite <- app_assoc. replace (S (imu_idx f)) with (imu_idx f + 1) by lia.
    reflexivity.
Qed.

Lemma aligns_alignment (self : AUViSAM) (t_state : Z) (f : Frame)
  (o : outcome unit) :
  aligns self t_state f o ->
  exists f', final_frame o = Some f' /\
             alignment self t_state f f' /\
             alignment_end self t_state o f'.
Proof.
  induction 1 as [f t_imu Ht Hle | f Hlen | f t_imu Ht Hlt Hls
                 | f t_imu ls o Ht Hlt Hls Hrun IH].
  - exists f. split; [reflexivity|]. split; [apply alignment_refl|].
    cbn. eauto.
  - exists f. split; [reflexivity|]. split; [apply alignment_refl|].
    cbn. auto.
  - exists f. split; [reflexivity|]. split; [apply alignment_refl|].
    cbn. auto.
  - destruct IH as (f' & Hfin & Hal & Hend).
    exists f'. split; [assumption|]. split; [|assumption].
    eapply alignment_consume; eauto.
Qed.

(** ** One turn of the outer loop *)

Lemma iteration_processed (self : AUViSAM) (f : Frame)
  (state prev_state : Gtsam.NavState) (t_i t_prev : Z) :
  state_idx f <> 0 ->
  get_nav_state self (state_idx f) = Ok state ->
  nth_error (iekf_times self) (state_idx f) = Some t_i ->
  nth_error (iekf_times self) (state_idx f - 1) = Some t_prev ->
  (0 < t_i - t_prev)%Z ->
  get_nav_state self (state_idx f - 1) = Ok prev_state ->
  iteration self f =
  advance (align (S (length (imu_times self))) self
                 (opened prev_state t_i f)).
Proof.
  intros Hi Hst Hti Htp Hdt Hprev.
  unfold iteration.
  remember (align (S (length (imu_times self))) self) as inner.
  unfold bind at 1, get. unfold bind at 1, lift at 1.
  rewrite Hst. apply Nat.eqb_neq in Hi. rewrite Hi.
  apply py_index_Ok in Hti, Htp.
  unfold bind, lift, modify, initial_insert, print, get, bind, lift, insert.
  cbn [state_idx with_graph with_initial with_state_idx initial].
  rewrite Hti, Htp, scaled_dt_nonpositive.
  destruct (Z.leb_spec (t_i - t_prev) 0) as [|_]; [lia|].
  rewrite Hprev. cbn.
  replace (with_stdout _ _) with (opened prev_state t_i f)
    by (destruct f; reflexivity).
  destruct (inner _); reflexivity.
Qed.

Lemma iteration_turn (self : AUViSAM) (f : Frame) :
  turn self f (iteration self f).
Proof.
  destruct (get_nav_state self (state_idx f)) as [state|e] eqn:Hst.
  2:{ replace (iteration self f) with (@Exc unit e f).
      - apply turn_no_state. exact Hst.
      - unfold iteration, bind, get, lift. rewrite Hst. reflexivity. }
  destruct (Nat.eq_dec (state_idx f) 0) as [Hi | Hi].
  { replace (iteration self f) with (Val tt (anchored self state f)).
    - apply turn_first; congruence.
    - unfold iteration, bind, get, lift. rewrite Hst, Hi.
      destruct f; cbn in *. subst. reflexivity. }
  pose proof Hi as Hi'. apply Nat.eqb_neq in Hi'.
  destruct (py_index (iekf_times self) (state_idx f)) as [t_i|e] eqn:Hti.
  2:{ replace (iteration self f) with (@Exc unit e (fresh f)).
      - eapply turn_no_time; eauto. rewrite Hti. reflexivity.
      - unfold iteration, bind, get, lift, modify.
        rewrite Hst, Hi'.
        cbn [state_idx with_graph with_initial]. rewrite Hti. reflexivity. }
  destruct (py_index (iekf_times self) (state_idx f - 1))
    as [t_prev|e] eqn:Htp.
  2:{ replace (iteration self f) with (@Exc unit e (fresh f)).
      - eapply turn_no_time; eauto. rewrite Hti. exact Htp.
      - unfold iteration, bind, get, lift, modify.
        rewrite Hst, Hi'.
        cbn [state_idx with_graph with_initial]. rewrite Hti, Htp.
        reflexivity. }
  destruct (Z.leb_spec (t_i - t_prev) 0) as [Hdt | Hdt].
  { replace (iteration self f) with (Val tt (skipped f)).
    - apply py_index_Ok in Hti, Htp. eapply turn_skip; eauto.
    - unfold iteration, bind, get, lift, modify.
      rewrite Hst, Hi'.
      cbn [state_idx with_graph with_initial]. rewrite Hti, Htp.
      rewrite scaled_dt_nonpositive.
      destruct (Z.leb_spec (t_i - t_prev) 0); [reflexivity | lia]. }
  apply py_index_Ok in Hti, Htp.
  destruct (get_nav_state self (state_idx f - 1)) as [prev_state|e] eqn:Hprev.
  2:{ replace (iteration self f) with (@Exc unit e (fresh f)).
      - eapply turn_no_prev; eauto.
      - apply py_index_Ok in Hti, Htp.
        unfold iteration, bind, get, lift, modify.
        rewrite Hst, Hi'.
        cbn [state_idx with_graph with_initial]. rewrite Hti, Htp.
        rewrite scaled_dt_nonpositive.
        destruct (Z.leb_spec (t_i - t_prev) 0); [lia|].
        rewrite Hprev. reflexivity. }
  rewrite (iteration_processed self f state prev_state t_i t_prev
             Hi Hst Hti Htp Hdt Hprev).
  eapply turn_processed; eauto.
  apply align_aligns.
  - exact Hti.
  - cbn. lia.
Qed.

Lemma forward_refl (f : Frame) : forward f f.
Proof.
  constructor; [reflexivity | lia | exists []; symmetry; apply app_nil_r].
Qed.

Lemma forward_trans (f g h : Frame) :
  forward f g -> forward g h -> forward f h.
Proof.
  intros [Hi Hc [m Ho]] [Hi' Hc' [m' Ho']]. constructor.
  - congruence.
  - lia.
  - exists (m ++ m'). rewrite Ho', Ho, app_assoc. reflexivity.
Qed.

Lemma alignment_forward (self : AUViSAM) (t_state : Z) (f f' : Frame) :
  alignment self t_state f f' -> forward f f'.
Proof.
  intros [Hfr Hfw _ Hout]. constructor.
  - rewrite Hfr. reflexivity.
  - exact Hfw.
  - eexists. exact Hout.
Qed.

(** A turn that returns has moved the epoch index by exactly one; a
    turn that raises has not moved it; no turn runs out of fuel. *)
Lemma turn_forward (self : AUViSAM) (f : Frame) (o : outcome unit) :
  turn self f o ->
  match o with
  | Val _ f' => state_idx f' = state_idx f + 1 /\ forward f f'
  | Exc _ f' => state_idx f' = state_idx f /\ forward f f'
  | OutOfFuel => False
  end.
Proof.
  destruct 1 as [e Hst | state Hi Hst | state e Hi Hst Hti
                | state t_i t_prev Hi Hst Hti Htp Hdt
                | state t_i t_prev e Hi Hst Hti Htp Hdt Hprev
                | state t_i t_prev prev_state o Hi Hst Hti Htp Hdt Hprev Hal].
  - split; [reflexivity | apply forward_refl].
  - split; [cbn; lia|]. constructor; cbn; [reflexivity | lia | ].
    exists []. symmetry. apply app_nil_r.
  - split; [reflexivity|]. constructor; cbn; [reflexivity | lia | ].
    exists []. symmetry. apply app_nil_r.
  - split; [reflexivity|]. constructor; cbn; [reflexivity | lia | ].
    exists []. symmetry. apply app_nil_r.
  - split; [reflexivity|]. constructor; cbn; [reflexivity | lia | ].
    exists []. symmetry. apply app_nil_r.
  - apply aligns_alignment in Hal as (f' & Hfin & Hal & Hend).
    assert (Hop : forward f (opened prev_state t_i f)).
    { constructor; cbn; [reflexivity | lia | eauto]. }
    pose proof (forward_trans _ _ _ Hop (alignment_forward _ _ _ _ Hal)) as Hfw.
    assert (Hidx : state_idx f' = state_idx f).
    { destruct Hal as [Hfr _ _ _]. rewrite Hfr. reflexivity. }
    destruct o as [[] g | e g |]; cbn in Hfin |- *.
    + injection Hfin as ->. split; [cbn; lia|].
      destruct Hfw as [Hi' Hc [m Ho]].
      constructor; cbn; eauto.
    + injection Hfin as ->. split; assumption.
    + discriminate.
Qed.

Lemma iteration_forward (self : AUViSAM) (f : Frame) :
  match iteration self f with
  | Val _ f' => state_idx f' = state_idx f + 1 /\ forward f f'
  | Exc _ f' => state_idx f' = state_idx f /\ forward f f'
  | OutOfFuel => False
  end.
Proof. apply turn_forward with (self := self). apply iteration_turn. Qed.

(** ** The outer loop *)

Lemma while_loop_unfold (fuel : nat) (self : AUViSAM) (f : Frame) :
  while_loop (S fuel) self f =
  if state_idx f <? 100 then
    match iteration self f with
    | Val _ f' => while_loop fuel self f'
    | Exc e f' => Exc e f'
    | OutOfFuel => OutOfFuel
    end
  else Val tt f.
Proof.
  cbn [while_loop]. unfold bind at 1, get.
  destruct (state_idx f <? 100); reflexivity.
Qed.

(** With more fuel than there are indices left below the bound, the
    outer loop ends, and it ends either at the bound or by raising. *)
Lemma while_loop_ends (self : AUViSAM) (fuel : nat) :
  forall f,
    100 - state_idx f < fuel ->
    match while_loop fuel self f with
    | Val _ f' => state_idx f' = Nat.max 100 (state_idx f) /\ forward f f'
    | Exc _ f' => state_idx f <= state_idx f' < 100 /\ forward f f'
    | OutOfFuel => False
    end.
Proof.
  induction fuel as [|fuel IH]; intros f Hfuel; [lia|].
  rewrite while_loop_unfold.
  destruct (Nat.ltb_spec (state_idx f) 100) as [Hlt | Hge].
  - pose proof (iteration_forward self f) as Hit.
    destruct (iteration self f) as [[] g | e g |].
    + destruct Hit as [Hidx Hfw].
      specialize (IH g ltac:(lia)).
      destruct (while_loop fuel self g) as [[] h | e h |].
      * destruct IH as [Hh Hfw']. split; [lia|].
        eapply forward_trans; eauto.
      * destruct IH as [Hh Hfw']. split; [lia|].
        eapply forward_trans; eauto.
      * exact IH.
    + destruct Hit as [Hidx Hfw]. split; [lia | exact Hfw].
    + exact Hit.
  - split; [lia | apply forward_refl].
Qed.

(** The model's fuel is never what ends a run. *)
Lemma iSAM_never_out_of_fuel (self : AUViSAM) : iSAM self <> OutOfFuel.
Proof.
  unfold iSAM.
  pose proof (while_loop_ends self 101 entry_frame ltac:(cbn; lia)) as H.
  destruct (while_loop 101 self entry_frame);
    [discriminate | discriminate | destruct H].
Qed.

(** ** The frames at the loop head *)

Lemma heads_unfold (fuel : nat) (self : AUViSAM) (f : Frame) :
  heads (S fuel) self f =
  f :: (if state_idx f <? 100 then
          match iteration self f with
          | Val _ f' => heads fuel self f'
          | _ => []
          end
        else []).
Proof. reflexivity. Qed.

(** Two neighbours in the list are the two ends of one turn. *)
Lemma heads_succ (self : AUViSAM) (fuel : nat) :
  forall f n g g',
    nth_error (heads fuel self f) n = Some g ->
    nth_error (heads fuel self f) (S n) = Some g' ->
    state_idx g < 100 /\ iteration self g = Val tt g'.
Proof.
  induction fuel as [|fuel IH]; intros f n g g' Hn HSn.
  - destruct n; discriminate.
  - rewrite heads_unfold in Hn, HSn. cbn [nth_error] in HSn.
    destruct (Nat.ltb_spec (state_idx f) 100) as [Hlt | Hge].
    2:{ destruct n; discriminate. }
    destruct (iteration self f) as [[] f' | e f' |] eqn:Hit.
    2,3: destruct n; discriminate.
    destruct n as [|n].
    + injection Hn as <-. split; [exact Hlt|].
      destruct fuel; [discriminate|].
      rewrite heads_unfold in HSn. injection HSn as <-. exact Hit.
    + cbn [nth_error] in Hn. eapply IH; eauto.
Qed.

(** The [n]-th frame of the list is at epoch index [n] past the first,
    and nothing has gone backwards on the way. *)
Lemma heads_nth (self : AUViSAM) (fuel : nat) :
  forall f n g,
    nth_error (heads fuel self f) n = Some g ->
    state_idx g = state_idx f + n /\ forward f g.
Proof.
  induction fuel as [|fuel IH]; intros f n g Hn.
  - destruct n; discriminate.
  - rewrite heads_unfold in Hn. destruct n as [|n].
    + injection Hn as <-. split; [lia | apply forward_refl].
    + cbn [nth_error] in Hn.
      destruct (state_idx f <? 100); [|destruct n; discriminate].
      pose proof (iteration_forward self f) as Hit.
      destruct (iteration self f) as [[] f' | e f' |];
        [|destruct n; discriminate..].
      destruct Hit as [Hidx Hfw].
      apply IH in Hn as [Hg Hfw']. split; [lia|].
      eapply forward_trans; eauto.
Qed.

Lemma heads_later (self : AUViSAM) (fuel : nat) :
  forall f n m g h,
    n <= m ->
    nth_error (heads fuel self f) n = Some g ->
    nth_error (heads fuel self f) m = Some h ->
    forward g h.
Proof.
  induction fuel as [|fuel IH]; intros f n m g h Hle Hn Hm.
  - destruct n; discriminate.
  - destruct n as [|n].
    + rewrite heads_unfold in Hn. injection Hn as <-.
      eapply heads_nth. exact Hm.
    + destruct m as [|m]; [lia|].
      rewrite heads_unfold in Hn, Hm. cbn [nth_error] in Hn, Hm.
      destruct (state_idx f <? 100); [|destruct n; discriminate].
      destruct (iteration self f) as [[] f' | e f' |];
        [|destruct n; discriminate..].
      eapply (IH f' n m); eauto. lia.
Qed.

(** When the loop returns, the list holds one frame for each index from
    the first up to the bound, and the last is the frame returned. *)
Lemma heads_of_return (self : AUViSAM) (fuel : nat) :
  forall f f',
    100 - state_idx f < fuel -> state_idx f <= 100 ->
    while_loop fuel self f = Val tt f' ->
    map state_idx (heads fuel self f)
      = seq (state_idx f) (101 - state_idx f) /\
    nth_error (heads fuel self f) (100 - state_idx f) = Some f'.
Proof.
  induction fuel as [|fuel IH]; intros f f' Hfuel Hle Hrun; [lia|].
  rewrite while_loop_unfold in Hrun. rewrite heads_unfold.
  destruct (Nat.ltb_spec (state_idx f) 100) as [Hlt | Hge].
  - pose proof (iteration_forward self f) as Hit.
    destruct (iteration self f) as [[] g | e g |];
      [|discriminate..].
    destruct Hit as [Hidx _].
    destruct (IH g f' ltac:(lia) ltac:(lia) Hrun) as [Hmap Hlast].
    replace (101 - state_idx f) with (S (101 - state_idx g)) by lia.
    replace (100 - state_idx f) with (S (100 - state_idx g)) by lia.
    cbn [map seq nth_error]. rewrite Hmap. split; [|exact Hlast].
    do 2 f_equal. lia.
  - injection Hrun as <-.
    assert (E : state_idx f = 100) by lia.
    cbn [map]. rewrite E. split; reflexivity.
Qed.

(** When the loop raises, it does so in the turn from the last frame
    of the list. *)
Lemma heads_of_raise (self : AUViSAM) (fuel : nat) :
  forall f e f',
    while_loop fuel self f = Exc e f' ->
    exists g, nth_error (heads fuel self f) (length (heads fuel self f) - 1)
                = Some g /\
              state_idx g < 100 /\ iteration self g = Exc e f'.
Proof.
  induction fuel as [|fuel IH]; intros f e f' Hrun; [discriminate|].
  rewrite while_loop_unfold in Hrun. rewrite heads_unfold.
  destruct (Nat.ltb_spec (state_idx f) 100) as [Hlt | Hge]; [|discriminate].
  destruct (iteration self f) as [[] g | e' g |] eqn:Hit; [| |discriminate].
  - destruct (IH g e f' Hrun) as (h & Hlast & Hh & Hraise).
    exists h. split; [|auto].
    cbn [length]. rewrite Nat.sub_succ, Nat.sub_0_r.
    destruct (heads fuel self g) as [|a l] eqn:E.
    + cbn in Hlast. discriminate.
    + cbn [length] in *. rewrite Nat.sub_succ, Nat.sub_0_r in Hlast.
      exact Hlast.
  - injection Hrun as -> ->. exists f. cbn. auto.
Qed.

(** ** Epochs of a run *)

Lemma nondecreasing_head (t : Z) (ts : list Z) :
  nondecreasing (t :: ts) = true ->
  nondecreasing ts = true /\
  forall k t', nth_error ts k = Some t' -> (t <= t')%Z.
Proof.
  revert t. induction ts as [|a ts IH]; intros t H.
  - split; [reflexivity|]. intros [|k] t' Hk; discriminate.
  - cbn [nondecreasing] in H. apply andb_prop in H as [Hle Hrest].
    apply Z.leb_le in Hle. split; [exact Hrest|].
    intros [|k] t' Hk.
    + injection Hk as <-. exact Hle.
    + cbn [nth_error] in Hk. destruct (IH a Hrest) as [_ Hall].
      specialize (Hall k t' Hk). lia.
Qed.

Lemma nondecreasing_nth (ts : list Z) :
  nondecreasing ts = true ->
  forall a b t_a t_b,
    a <= b -> nth_error ts a = Some t_a -> nth_error ts b = Some t_b ->
    (t_a <= t_b)%Z.
Proof.
  induction ts as [|t ts IH]; intros H a b t_a t_b Hab Ha Hb.
  - destruct a; discriminate.
  - destruct (nondecreasing_head _ _ H) as [Hrest Hall].
    destruct a as [|a], b as [|b]; cbn [nth_error] in Ha, Hb.
    + injection Ha as <-. injection Hb as <-. lia.
    + injection Ha as <-. eapply Hall; eauto.
    + lia.
    + eapply (IH Hrest a b); eauto. lia.
Qed.

Lemma head_at_nth_error (self : AUViSAM) (n : nat) :
  n < length (iSAM_heads self) ->
  nth_error (iSAM_heads self) n = Some (head_at self n).
Proof. intros H. unfold head_at. apply nth_error_nth'. exact H. Qed.

Lemma head_at_state_idx (self : AUViSAM) (n : nat) :
  n < length (iSAM_heads self) -> state_idx (head_at self n) = n.
Proof.
  intros H. apply head_at_nth_error in H.
  apply heads_nth in H as [H _]. exact H.
Qed.

Lemma head_at_later (self : AUViSAM) (n m : nat) :
  n <= m -> m < length (iSAM_heads self) ->
  forward (head_at self n) (head_at self m).
Proof.
  intros Hle Hm.
  eapply (heads_later self 101 entry_frame n m); eauto.
  - apply head_at_nth_error. lia.
  - apply head_at_nth_error. exact Hm.
Qed.

(** A completed turn is a turn of [iteration] that returned. *)
Lemma completed_turn (self : AUViSAM) (n : nat) :
  completed self n ->
  n < 100 /\ state_idx (head_at self n) = n /\
  iteration self (head_at self n) = Val tt (head_at self (S n)).
Proof.
  unfold completed. intros H.
  assert (Hn : n < length (iSAM_heads self)) by lia.
  pose proof (head_at_state_idx self n Hn) as Hidx.
  destruct (heads_succ self 101 entry_frame n (head_at self n)
              (head_at self (S n))) as [Hlt Hit].
  - apply head_at_nth_error. exact Hn.
  - apply head_at_nth_error. exact H.
  - rewrite Hidx in Hlt. auto.
Qed.

(** Past the frames of the run, [head_at] is the entry frame. *)
Lemma head_at_beyond (self : AUViSAM) (n : nat) :
  length (iSAM_heads self) <= n -> head_at self n = entry_frame.
Proof. intros H. unfold head_at. apply nth_overflow. exact H. Qed.

Lemma consumed_range (self : AUViSAM) (n k : nat) :
  In k (consumed self n) <->
  imu_idx (head_at self n) <= k < imu_idx (head_at self (S n)).
Proof. unfold consumed. rewrite in_seq. lia. Qed.

(** Only a completed turn has consumed anything. *)
Lemma consumed_completed (self : AUViSAM) (n k : nat) :
  In k (consumed self n) -> completed self n.
Proof.
  intros H. apply consumed_range in H. unfold completed.
  destruct (Nat.lt_ge_cases (S n) (length (iSAM_heads self))) as [|Hge];
    [assumption|].
  rewrite (head_at_beyond self (S n) Hge) in H. cbn in H. lia.
Qed.

Lemma scaled_dt_le (t_i t_prev : Z) :
  Qle_bool (scaled_dt t_i t_prev) 0%Q = true <-> (t_i - t_prev <= 0)%Z.
Proof. rewrite scaled_dt_nonpositive. apply Z.leb_le. Qed.

Lemma scaled_dt_Qle (t_i t_prev : Z) :
  (scaled_dt t_i t_prev <= 0)%Q <-> (t_i - t_prev <= 0)%Z.
Proof. rewrite <- Qle_bool_iff. apply scaled_dt_le. Qed.

(** The three ways a turn returns. *)
Lemma turn_returns (self : AUViSAM) (f f' : Frame) :
  turn self f (Val tt f') ->
  (state_idx f = 0 /\
   exists state, get_nav_state self 0 = Ok state /\
                 f' = anchored self state f)
  \/
  (state_idx f <> 0 /\
   exists t_i t_prev,
     nth_error (iekf_times self) (state_idx f) = Some t_i /\
     nth_error (iekf_times self) (state_idx f - 1) = Some t_prev /\
     (t_i - t_prev <= 0)%Z /\
     f' = skipped f)
  \/
  (state_idx f <> 0 /\
   exists t_i t_prev prev_state g,
     nth_error (iekf_times self) (state_idx f) = Some t_i /\
     nth_error (iekf_times self) (state_idx f - 1) = Some t_prev /\
     (0 < t_i - t_prev)%Z /\
     get_nav_state self (state_idx f - 1) = Ok prev_state /\
     alignment self t_i (opened prev_state t_i f) g /\
     (exists t, nth_error (imu_times self) (imu_idx g) = Some t /\
                (t_i <= t)%Z) /\
     f' = with_state_idx (state_idx g + 1) g).
Proof.
  intros H. inversion H as [ | state Hi Hst | | state t_i t_prev Hi Hst Hti Htp Hdt
                           | | state t_i t_prev prev_state o Hi Hst Hti Htp
                                 Hdt Hprev Hal Hadv ]; subst.
  - left. eauto.
  - right. left. split; [assumption|]. exists t_i, t_prev. auto.
  - right. right. split; [assumption|].
    apply aligns_alignment in Hal as (g & Hfin & Hal & Hend).
    destruct o as [[] g' | e g' |]; cbn in Hadv; try discriminate.
    cbn in Hfin. injection Hfin as ->. injection Hadv as <-.
    exists t_i, t_prev, prev_state, g. cbn in Hend. auto 8.
Qed.

Lemma dt_nonpositive_Some (self : AUViSAM) (n : nat) (t_i t_prev : Z) :
  nth_error (iekf_times self) n = Some t_i ->
  nth_error (iekf_times self) (n - 1) = Some t_prev ->
  dt_nonpositive self n = Some (t_i - t_prev <=? 0)%Z.
Proof.
  intros Hti Htp. unfold dt_nonpositive.
  rewrite Hti, Htp, scaled_dt_nonpositive. reflexivity.
Qed.

(** A completed turn for a skipped epoch ends in the [skipped] frame. *)
Lemma skipped_epoch_turn (self : AUViSAM) (n : nat) :
  skipped_epoch self n = true -> completed self n ->
  head_at self (S n) = skipped (head_at self n).
Proof.
  intros Hsk Hc. destruct (completed_turn self n Hc) as (Hlt & Hidx & Hit).
  pose proof (iteration_turn self (head_at self n)) as Ht.
  rewrite Hit in Ht. apply turn_returns in Ht.
  unfold skipped_epoch in Hsk. apply andb_prop in Hsk as [Hn Hsk].
  apply Nat.leb_le in Hn. rewrite Hidx in Ht.
  destruct Ht as [[H0 _] | [(_ & t_i & t_prev & Hti & Htp & Hdt & Hf')
                          | (_ & t_i & t_prev & p & g & Hti & Htp & Hdt & _)]].
  - lia.
  - exact Hf'.
  - rewrite (dt_nonpositive_Some self n t_i t_prev Hti Htp) in Hsk.
    apply Z.leb_le in Hsk. lia.
Qed.

(** A completed turn for a processed epoch: the inner loop ran from the
    [opened] frame to some frame [g] in front of a sample that is not
    earlier than the epoch, and the turn ends in [g] with the epoch index
    moved on. *)
Lemma processed_epoch_turn (self : AUViSAM) (n : nat) :
  processed_epoch self n = true -> completed self n ->
  exists t_n prev_state g,
    nth_error (iekf_times self) n = Some t_n /\
    get_nav_state self (n - 1) = Ok prev_state /\
    alignment self t_n (opened prev_state t_n (head_at self n)) g /\
    (exists t, nth_error (imu_times self) (imu_idx g) = Some t /\
               (t_n <= t)%Z) /\
    head_at self (S n) = with_state_idx (n + 1) g.
Proof.
  intros Hpr Hc. destruct (completed_turn self n Hc) as (Hlt & Hidx & Hit).
  pose proof (iteration_turn self (head_at self n)) as Ht.
  rewrite Hit in Ht. apply turn_returns in Ht.
  unfold processed_epoch in Hpr. apply andb_prop in Hpr as [Hn Hpr].
  apply Nat.leb_le in Hn. rewrite Hidx in Ht.
  destruct Ht as [[H0 _] | [(_ & t_i & t_prev & Hti & Htp & Hdt & Hf')
                          | (_ & t_i & t_prev & p & g & Hti & Htp & Hdt
                             & Hprev & Hal & Hend & Hf')]].
  - lia.
  - rewrite (dt_nonpositive_Some self n t_i t_prev Hti Htp) in Hpr.
    destruct (Z.leb_spec (t_i - t_prev) 0); [discriminate | lia].
  - exists t_i, p, g. repeat (split; [assumption|]).
    rewrite Hf'. f_equal.
    destruct Hal as [Hfr _ _ _]. rewrite Hfr.
    cbn [state_idx with_imu_idx with_stdout opened with_initial with_graph].
    lia.
Qed.

(** The first turn ends in the [anchored] frame. *)
Lemma first_epoch_turn (self : AUViSAM) :
  completed self 0 ->
  exists state, get_nav_state self 0 = Ok state /\
                head_at self 1 = anchored self state entry_frame.
Proof.
  intros Hc. destruct (completed_turn self 0 Hc) as (Hlt & Hidx & Hit).
  pose proof (iteration_turn self (head_at self 0)) as Ht.
  rewrite Hit in Ht. apply turn_returns in Ht.
  assert (H0 : head_at self 0 = entry_frame) by reflexivity.
  destruct Ht as [(_ & state & Hst & Hf') | [[Hn _] | [Hn _]]].
  - exists state. rewrite <- H0. auto.
  - contradiction.
  - contradiction.
Qed.

(** ** What a run leaves in the solver, the graph and the values *)

(** No frame of a run has a solver other than the empty one. *)
Lemma run_isam (self : AUViSAM) (n : nat) :
  n < length (iSAM_heads self) -> isam (head_at self n) = Gtsam.ISAM2_new.
Proof.
  intros Hn.
  destruct (head_at_later self 0 n ltac:(lia) Hn) as [Hi _ _].
  exact Hi.
Qed.

Lemma final_isam (self : AUViSAM) (f : Frame) :
  final_frame (iSAM self) = Some f -> isam f = Gtsam.ISAM2_new.
Proof.
  unfold iSAM.
  pose proof (while_loop_ends self 101 entry_frame ltac:(cbn; lia)) as H.
  destruct (while_loop 101 self entry_frame) as [[] g | e g |];
    cbn; intros Hf; try discriminate; injection Hf as <-;
    destruct H as [_ [Hi _ _]]; exact Hi.
Qed.

(** The locals at the end of a completed turn for a processed epoch. *)
Lemma processed_epoch_locals (self : AUViSAM) (n : nat) :
  processed_epoch self n = true -> completed self n ->
  exists prev_state,
    get_nav_state self (n - 1) = Ok prev_state /\
    graph (head_at self (S n)) = [] /\
    initial (head_at self (S n)) =
      [(Gtsam.X n, Gtsam.VPose3 (Gtsam.pose prev_state));
       (Gtsam.V n, Gtsam.VPoint3 (Gtsam.velocity prev_state))] /\
    isam (head_at self (S n)) = Gtsam.ISAM2_new.
Proof.
  intros Hpr Hc.
  destruct (processed_epoch_turn self n Hpr Hc)
    as (t_n & prev_state & g & Hti & Hprev & [Hfr _ _ _] & _ & Hf').
  destruct (completed_turn self n Hc) as (_ & Hidx & _).
  exists prev_state. split; [exact Hprev|].
  rewrite Hf', Hfr. cbn. rewrite Hidx.
  repeat split. apply run_isam. unfold completed in Hc. lia.
Qed.

(** The locals at the end of a completed turn for a skipped epoch. *)
Lemma skipped_epoch_locals (self : AUViSAM) (n : nat) :
  skipped_epoch self n = true -> completed self n ->
  state_idx (head_at self (S n)) = n + 1 /\
  graph (head_at self (S n)) = [] /\
  initial (head_at self (S n)) = [] /\
  isam (head_at self (S n)) = isam (head_at self n) /\
  imu_idx (head_at self (S n)) = imu_idx (head_at self n) /\
  stdout (head_at self (S n)) = stdout (head_at self n).
Proof.
  intros Hsk Hc. rewrite (skipped_epoch_turn self n Hsk Hc).
  destruct (completed_turn self n Hc) as (_ & Hidx & _).
  cbn. rewrite Hidx. repeat split.
Qed.

(** ** The claims about epoch stepping *)

(** C1, evaluated on a run of 100 epochs 10 ns apart with 100 IMU
    samples in between.  The run returns, epoch 1 is processed, and at
    the end of its turn the graph holds no factor at all, so no
    preintegration factor, and the solver has not been updated; the
    solver is still the empty one in the frame the run ends in. *)
Theorem processed_turn_leaves_graph_and_solver_empty :
  let self := init (regular_logs 100 100 10 5) in
  returns (iSAM self) = true /\
  processed_epoch self 1 = true /\
  completed self 1 /\
  graph (head_at self 2) = [] /\
  filter Gtsam.is_preintegration (graph (head_at self 2)) = [] /\
  Gtsam.updates (isam (head_at self 2)) = 0 /\
  (forall f, final_frame (iSAM self) = Some f ->
             Gtsam.updates (isam f) = 0 /\ Gtsam.factors (isam f) = []).
Proof.
  intros self.
  assert (Hret : returns (iSAM self) = true) by (vm_compute; reflexivity).
  assert (Hpr : processed_epoch self 1 = true) by (vm_compute; reflexivity).
  assert (Hc : completed self 1).
  { unfold completed.
    replace (length (iSAM_heads self)) with 101
      by (vm_compute; reflexivity).
    lia. }
  destruct (processed_epoch_locals self 1 Hpr Hc)
    as (prev_state & _ & Hg & _ & Hi).
  split; [exact Hret|]. split; [exact Hpr|]. split; [exact Hc|].
  split; [exact Hg|]. rewrite Hg, Hi.
  split; [reflexivity|]. split; [reflexivity|].
  intros f Hf. rewrite (final_isam self f Hf). split; reflexivity.
Qed.

(** C2, evaluated on a run of 100 epochs 10 ns apart with only 50 IMU
    samples, the last at 495 ns.  At epoch 50, whose timestamp 500 ns
    lies beyond the last sample, the inner loop consumes sample 49 and
    then indexes the stream at 50: the run ends there with [IndexError]. *)
Theorem exhausted_imu_stream_raises :
  let self := init (regular_logs 100 50 10 5) in
  length (imu_times self) = 50 /\
  nth_error (imu_times self) 49 = Some 495%Z /\
  nth_error (iekf_times self) 50 = Some 500%Z /\
  exists f, iSAM self = Exc IndexError f /\
            state_idx f = 50 /\ imu_idx f = 50.
Proof.
  intros self.
  repeat (split; [vm_compute; reflexivity|]).
  assert (H : match iSAM self with
              | Exc IndexError f => state_idx f = 50 /\ imu_idx f = 50
              | _ => False
              end) by (vm_compute; split; reflexivity).
  destruct (iSAM self) as [a f | e f |]; try contradiction.
  destruct e; try contradiction.
  exists f. split; [reflexivity | exact H].
Qed.

(** C4.  At an epoch index [i >= 1] whose computed [dt] is not
    positive, the turn returns with the epoch index at [i + 1], having
    created no pose or velocity variable for [i] (the graph and the
    values of the turn are empty, so there is no estimate under [X i] or
    [V i]) and without touching the solver; the cursor and the output are
    as before. *)
Theorem nonpositive_dt_skips_epoch (self : AUViSAM) (f : Frame)
  (i : nat) (state : Gtsam.NavState) (t_i t_prev : Z) :
  state_idx f = i -> 1 <= i ->
  get_nav_state self i = Ok state ->
  nth_error (iekf_times self) i = Some t_i ->
  nth_error (iekf_times self) (i - 1) = Some t_prev ->
  (scaled_dt t_i t_prev <= 0)%Q ->
  exists f',
    iteration self f = Val tt f' /\
    state_idx f' = i + 1 /\
    graph f' = [] /\
    initial f' = [] /\
    Gtsam.at_key (initial f') (Gtsam.X i) = None /\
    Gtsam.at_key (initial f') (Gtsam.V i) = None /\
    isam f' = isam f /\
    Gtsam.updates (isam f') = Gtsam.updates (isam f) /\
    imu_idx f' = imu_idx f /\
    stdout f' = stdout f.
Proof.
  intros Hidx Hi Hst Hti Htp Hdt. subst i.
  apply scaled_dt_Qle in Hdt.
  exists (skipped f).
  split; [|cbn; repeat split].
  pose proof (iteration_turn self f) as Ht.
  inversion Ht as [ e Hst' | st Hi' | st e Hi' Hst' Hraise
                  | st a b Hi' Hst' Ha Hb Hab
                  | st a b e Hi' Hst' Ha Hb Hab
                  | st a b p o Hi' Hst' Ha Hb Hab ].
  - congruence.
  - lia.
  - apply py_index_Ok in Hti, Htp. rewrite Hti in Hraise. cbn in Hraise.
    congruence.
  - reflexivity.
  - assert (a = t_i) by congruence. assert (b = t_prev) by congruence. lia.
  - assert (a = t_i) by congruence. assert (b = t_prev) by congruence. lia.
Qed.

Lemma nonpositive_dt_skips_epoch_witness :
  exists f',
    iteration (init stuttering_logs)
              (with_imu_idx 1 (with_state_idx 2 entry_frame)) = Val tt f' /\
    state_idx f' = 3 /\ graph f' = [] /\ initial f' = [] /\
    imu_idx f' = 1.
Proof.
  assert (Hrows : rows (iekf_states (init stuttering_logs)) 4).
  { repeat split. }
  destruct (nonpositive_dt_skips_epoch
              (init stuttering_logs)
              (with_imu_idx 1 (with_state_idx 2 entry_frame))
              2 (row_state (iekf_states (init stuttering_logs)) 2)
              10%Z 10%Z)
    as (f' & Hit & Hidx & Hg & Hin & _ & _ & _ & _ & Hc & _).
  - reflexivity.
  - lia.
  - apply (get_nav_state_in_range (init stuttering_logs) 4 2 Hrows). lia.
  - reflexivity.
  - reflexivity.
  - vm_compute. discriminate.
  - exists f'. repeat (split; [assumption|]). exact Hc.
Defined.

(** The graph at the end of a turn for an epoch other than 0 is the
    empty graph the turn started with, unless the turn raised before it
    bound [graph], in which case the frame is untouched. *)
Lemma later_turn_graph (self : AUViSAM) (f : Frame) (o : outcome unit) :
  turn self f o -> state_idx f <> 0 ->
  match o with
  | Val _ f' => graph f' = []
  | Exc _ f' => f' = f \/ graph f' = []
  | OutOfFuel => False
  end.
Proof.
  destruct 1 as [e Hst | state Hi Hst | state e Hi Hst Hti
                | state t_i t_prev Hi Hst Hti Htp Hdt
                | state t_i t_prev e Hi Hst Hti Htp Hdt Hprev
                | state t_i t_prev prev_state o Hi Hst Hti Htp Hdt Hprev Hal];
    intros Hne.
  - left. reflexivity.
  - contradiction.
  - right. reflexivity.
  - reflexivity.
  - right. reflexivity.
  - apply aligns_alignment in Hal as (g & Hfin & [Hfr _ _ _] & Hend).
    destruct o as [[] g' | e g' |]; cbn in Hfin |- *; try discriminate;
      injection Hfin as ->; [|right]; rewrite Hfr; reflexivity.
Qed.

(** C8.  With the object built by [__init__]: the turn for epoch 0
    puts exactly two factors into the graph, a prior on [X 0] at the pose
    of the external estimator's row 0 with isotropic noise 0.1 in 6
    dimensions and a prior on [V 0] at its velocity with isotropic noise
    0.1 in 3 dimensions, and inserts that pose, that velocity and the
    fixed bias under [X 0], [V 0] and the bias key; the turn for any
    later epoch leaves no prior in its graph, whether it returns or
    raises. *)
Theorem priors_only_at_epoch_0 (logs : Logs) (state : Gtsam.NavState)
  (f : Frame) :
  get_nav_state (init logs) 0 = Ok state ->
  state_idx f = 0 ->
  let self := init logs in
  (exists f',
     iteration self f = Val tt f' /\
     graph f' =
       [Gtsam.PriorFactorPose3 (Gtsam.X 0) (Gtsam.pose state)
                               (Gtsam.Isotropic_Sigma 6 (1 / 10)%R);
        Gtsam.PriorFactorPoint3 (Gtsam.V 0) (Gtsam.velocity state)
                                (Gtsam.Isotropic_Sigma 3 (1 / 10)%R)] /\
     initial f' =
       [(Gtsam.X 0, Gtsam.VPose3 (Gtsam.pose state));
        (Gtsam.V 0, Gtsam.VPoint3 (Gtsam.velocity state));
        (BIAS_KEY, Gtsam.VBias bias_literal)] /\
     state_idx f' = 1) /\
  (forall g, state_idx g <> 0 ->
     match iteration self g with
     | Val _ g' => filter Gtsam.is_prior (graph g') = []
     | Exc _ g' => g' = g \/ filter Gtsam.is_prior (graph g') = []
     | OutOfFuel => False
     end).
Proof.
  intros Hst Hidx self. split.
  - exists (anchored self state f). split; [|cbn; repeat split].
    pose proof (iteration_turn self f) as Ht.
    inversion Ht as [ e Hst' | st Hi' Hst' | st e Hi' | st a b Hi'
                    | st a b e Hi' | st a b p o Hi' ]; try contradiction.
    + rewrite Hidx in Hst'. unfold self in Hst'. congruence.
    + unfold self in Hst'. congruence.
  - intros g Hne.
    pose proof (later_turn_graph self g _ (iteration_turn self g) Hne) as H.
    destruct (iteration self g) as [[] g' | e g' |].
    + rewrite H. reflexivity.
    + destruct H as [H | H]; [left; exact H | right; rewrite H; reflexivity].
    + exact H.
Qed.

Lemma priors_only_at_epoch_0_witness :
  exists f',
    iteration (init (regular_logs 3 3 10 5)) entry_frame = Val tt f' /\
    length (graph f') = 2 /\ length (initial f') = 3 /\ state_idx f' = 1.
Proof.
  assert (Hrows : rows (iekf_states (init (regular_logs 3 3 10 5))) 3).
  { repeat split. }
  destruct (priors_only_at_epoch_0
              (regular_logs 3 3 10 5)
              (row_state (iekf_states (init (regular_logs 3 3 10 5))) 0)
              entry_frame)
    as [(f' & Hit & Hg & Hin & Hidx) _].
  - apply (get_nav_state_in_range _ 3 0 Hrows). lia.
  - reflexivity.
  - exists f'. split; [exact Hit|]. rewrite Hg, Hin. auto.
Defined.

(** ** The claims about the IMU read cursor *)

(** The cursor and the output around the inner loop of a completed
    turn for a processed epoch. *)
Lemma processed_epoch_alignment (self : AUViSAM) (n : nat) :
  processed_epoch self n = true -> completed self n ->
  exists t_n,
    nth_error (iekf_times self) n = Some t_n /\
    imu_idx (head_at self n) <= imu_idx (head_at self (S n)) /\
    (forall k, In k (consumed self n) ->
       exists t, nth_error (imu_times self) k = Some t /\ (t < t_n)%Z) /\
    (exists t, nth_error (imu_times self) (imu_idx (head_at self (S n)))
                 = Some t /\ (t_n <= t)%Z) /\
    stdout (head_at self (S n)) =
      stdout (head_at self n) ++
      StateTime t_n :: flat_map (printed self) (consumed self n).
Proof.
  intros Hpr Hc.
  destruct (processed_epoch_turn self n Hpr Hc)
    as (t_n & prev_state & g & Hti & Hprev & [Hfr Hfw Hear Hout] & Hend & Hf').
  change (imu_idx (opened prev_state t_n (head_at self n)))
    with (imu_idx (head_at self n)) in *.
  change (stdout (opened prev_state t_n (head_at self n)))
    with (stdout (head_at self n) ++ [StateTime t_n]) in Hout.
  assert (Hc' : imu_idx (head_at self (S n)) = imu_idx g)
    by (rewrite Hf'; reflexivity).
  assert (Ho' : stdout (head_at self (S n)) = stdout g)
    by (rewrite Hf'; reflexivity).
  exists t_n. split; [exact Hti|]. split; [lia|]. split; [|split].
  - intros k Hk. apply consumed_range in Hk. apply Hear. lia.
  - rewrite Hc'. exact Hend.
  - rewrite Ho', Hout. unfold consumed. rewrite Hc', <- app_assoc.
    reflexivity.
Qed.

(** C6.  Take two epochs [i < j] of a run, a sample [k_i] consumed
    while aligning epoch [i] and a sample [k_j] consumed while aligning
    epoch [j].  Then [k_i] comes before [k_j] in the stream, and when the
    stream's timestamps are in non-decreasing order the timestamp of
    [k_i] is at most that of [k_j].  No turn of the loop, returning or
    raising, moves the cursor back, and along the frames of the run the
    cursor never decreases. *)
Theorem imu_cursor_monotone (self : AUViSAM) (i j k_i k_j : nat) :
  i < j ->
  In k_i (consumed self i) ->
  In k_j (consumed self j) ->
  k_i <= k_j /\
  (nondecreasing (imu_times self) = true ->
   forall t_i t_j,
     nth_error (imu_times self) k_i = Some t_i ->
     nth_error (imu_times self) k_j = Some t_j ->
     (t_i <= t_j)%Z) /\
  (forall f,
     match iteration self f with
     | Val _ f' | Exc _ f' => imu_idx f <= imu_idx f'
     | OutOfFuel => False
     end) /\
  (forall n m, n <= m -> m < length (iSAM_heads self) ->
     imu_idx (head_at self n) <= imu_idx (head_at self m)).
Proof.
  intros Hij Hi Hj.
  assert (Hmono : forall n m, n <= m -> m < length (iSAM_heads self) ->
                    imu_idx (head_at self n) <= imu_idx (head_at self m)).
  { intros n m Hnm Hm.
    destruct (head_at_later self n m Hnm Hm) as [_ H _]. exact H. }
  pose proof (consumed_completed self j k_j Hj) as Hcj.
  apply consumed_range in Hi, Hj.
  assert (Hle : k_i <= k_j).
  { unfold completed in Hcj.
    pose proof (Hmono (S i) j ltac:(lia) ltac:(lia)). lia. }
  split; [exact Hle|]. split; [|split; [|exact Hmono]].
  - intros Hsorted t_i t_j Hti Htj.
    exact (nondecreasing_nth _ Hsorted k_i k_j t_i t_j Hle Hti Htj).
  - intros f. pose proof (iteration_forward self f) as H.
    destruct (iteration self f) as [[] f' | e f' |];
      [destruct H as [_ [_ H _]]; exact H
      |destruct H as [_ [_ H _]]; exact H
      |exact H].
Qed.

Lemma imu_cursor_monotone_witness :
  let self := init (regular_logs 4 6 10 5) in
  0 <= 1 /\
  (nth_error (imu_times self) 0 = Some 5%Z ->
   nth_error (imu_times self) 1 = Some 15%Z -> (5 <= 15)%Z).
Proof.
  intros self.
  destruct (imu_cursor_monotone self 1 2 0 1) as (Hk & Ht & _ & _).
  - lia.
  - vm_compute. left. reflexivity.
  - vm_compute. left. reflexivity.
  - split; [exact Hk|]. apply Ht. vm_compute. reflexivity.
Defined.

(** C7.  In a run, take a processed epoch [n] with timestamp [t_n]
    whose turn returned; let [c] be the cursor at the start of the turn
    and [c'] the cursor at its end.  The turn consumed the samples
    [c .. c' - 1], each with a timestamp strictly less than [t_n], and
    printed them in order; [c'] is the first position from [c] on whose
    timestamp is not less than [t_n]; and when the stream is in
    non-decreasing order, the samples consumed are exactly the samples
    from [c] on with a timestamp less than [t_n]. *)
Theorem alignment_consumes_earlier_samples (self : AUViSAM) (n : nat)
  (t_n : Z) :
  processed_epoch self n = true ->
  completed self n ->
  nth_error (iekf_times self) n = Some t_n ->
  let c := imu_idx (head_at self n) in
  let c' := imu_idx (head_at self (S n)) in
  c <= c' /\
  consumed self n = seq c (c' - c) /\
  (forall k, In k (consumed self n) ->
     exists t, nth_error (imu_times self) k = Some t /\ (t < t_n)%Z) /\
  (exists t, nth_error (imu_times self) c' = Some t /\ (t_n <= t)%Z) /\
  (forall k t, c <= k -> nth_error (imu_times self) k = Some t ->
               (t_n <= t)%Z -> c' <= k) /\
  (nondecreasing (imu_times self) = true ->
   forall k t, c <= k -> nth_error (imu_times self) k = Some t ->
               ((t < t_n)%Z <-> In k (consumed self n))) /\
  stdout (head_at self (S n)) =
    stdout (head_at self n) ++
    StateTime t_n :: flat_map (printed self) (consumed self n).
Proof.
  intros Hpr Hc Htn c c'.
  destruct (processed_epoch_alignment self n Hpr Hc)
    as (t & Ht & Hle & Hear & (t' & Hstop & Hge) & Hout).
  assert (t = t_n) by congruence. subst t.
  assert (Hfirst : forall k t, c <= k ->
            nth_error (imu_times self) k = Some t ->
            (t_n <= t)%Z -> c' <= k).
  { intros k t Hk Hkt Hcmp.
    destruct (Nat.lt_ge_cases k c') as [Hlt | Hge']; [|exact Hge'].
    destruct (Hear k) as (t0 & Ht0 & Hlt0).
    - apply consumed_range. fold c c'. lia.
    - assert (t0 = t) by congruence. lia. }
  split; [exact Hle|]. split; [reflexivity|]. split; [exact Hear|].
  split; [exists t'; auto|]. split; [exact Hfirst|]. split; [|exact Hout].
  intros Hsorted k t Hk Hkt. split.
  - intros Hlt. apply consumed_range. fold c c'. split; [exact Hk|].
    destruct (Nat.lt_ge_cases k c') as [|Hge']; [assumption|].
    pose proof (nondecreasing_nth _ Hsorted c' k t' t Hge' Hstop Hkt). lia.
  - intros Hin. destruct (Hear k Hin) as (t0 & Ht0 & Hlt0).
    assert (t0 = t) by congruence. lia.
Qed.

Lemma alignment_consumes_earlier_samples_witness :
  let self := init (regular_logs 4 6 10 5) in
  consumed self 2 = [1] /\
  exists t, nth_error (imu_times self) 2 = Some t /\ (20 <= t)%Z.
Proof.
  intros self.
  destruct (alignment_consumes_earlier_samples self 2 20%Z)
    as (_ & Hcons & _ & Hstop & _).
  - vm_compute. reflexivity.
  - unfold completed. vm_compute. lia.
  - vm_compute. reflexivity.
  - split; [|exact Hstop]. rewrite Hcons. vm_compute. reflexivity.
Defined.

(** Through a stretch of skipped epochs the cursor stays where it is. *)
Lemma skipped_stretch_cursor (self : AUViSAM) (i : nat) (d : nat) :
  (forall n, i <= n < i + d -> skipped_epoch self n = true) ->
  i + d < length (iSAM_heads self) ->
  imu_idx (head_at self (i + d)) = imu_idx (head_at self i) /\
  stdout (head_at self (i + d)) = stdout (head_at self i).
Proof.
  induction d as [|d IH]; intros Hsk Hlen.
  - rewrite Nat.add_0_r. split; reflexivity.
  - destruct IH as [IHc IHo].
    + intros n Hn. apply Hsk. lia.
    + lia.
    + assert (Hc : completed self (i + d)) by (unfold completed; lia).
      destruct (skipped_epoch_locals self (i + d) (Hsk (i + d) ltac:(lia)) Hc)
        as (_ & _ & _ & _ & Hcur & Hout).
      replace (i + S d) with (S (i + d)) by lia.
      rewrite Hcur, Hout. auto.
Qed.

(** ** The claim about the initial estimates *)

(** C3, as the code has it.  At the end of a completed turn for a
    processed epoch [n >= 1], the values of the turn hold exactly two
    entries: under [X n] the pose, and under [V n] the velocity, that
    [get_nav_state] builds from row [n - 1] of the external estimator's
    series.  The solver is not consulted: it has no estimate of any
    variable at that point. *)
Theorem initial_estimates_from_previous_row (self : AUViSAM) (n : nat) :
  processed_epoch self n = true ->
  completed self n ->
  exists prev_state,
    get_nav_state self (n - 1) = Ok prev_state /\
    initial (head_at self (S n)) =
      [(Gtsam.X n, Gtsam.VPose3 (Gtsam.pose prev_state));
       (Gtsam.V n, Gtsam.VPoint3 (Gtsam.velocity prev_state))] /\
    Gtsam.at_key (initial (head_at self (S n))) (Gtsam.X n)
      = Some (Gtsam.VPose3 (Gtsam.pose prev_state)) /\
    Gtsam.at_key (initial (head_at self (S n))) (Gtsam.V n)
      = Some (Gtsam.VPoint3 (Gtsam.velocity prev_state)) /\
    (forall k, Gtsam.calculateEstimate (isam (head_at self (S n))) k = None).
Proof.
  intros Hpr Hc.
  destruct (processed_epoch_locals self n Hpr Hc)
    as (prev_state & Hprev & _ & Hin & Hi).
  exists prev_state. split; [exact Hprev|]. split; [exact Hin|].
  rewrite Hin, Hi. cbn. rewrite Nat.eqb_refl.
  repeat split.
Qed.

Lemma initial_estimates_from_previous_row_witness :
  let self := init (regular_logs 4 6 10 5) in
  exists prev_state,
    get_nav_state self 0 = Ok prev_state /\
    Gtsam.at_key (initial (head_at self 2)) (Gtsam.X 1)
      = Some (Gtsam.VPose3 (Gtsam.pose prev_state)).
Proof.
  intros self.
  destruct (initial_estimates_from_previous_row self 1)
    as (prev_state & Hprev & _ & Hx & _).
  - vm_compute. reflexivity.
  - unfold completed. vm_compute. lia.
  - exists prev_state. split; [exact Hprev | exact Hx].
Defined.

(** C3 as stated fails: on a run of 4 epochs, at the end of the turn
    for epoch 1 the initial estimate inserted for the new pose [X 1] is
    the pose of row 0 of the external estimator's series, while the
    solver holds no estimate for the pose [X 0] of the previous epoch;
    the two are not equal. *)
Lemma initial_estimate_is_not_solver_estimate :
  let self := init (regular_logs 4 6 10 5) in
  processed_epoch self 1 = true /\
  completed self 1 /\
  Gtsam.at_key (initial (head_at self 2)) (Gtsam.X 1)
    = Some (Gtsam.VPose3
              (Gtsam.pose (row_state (iekf_states self) 0))) /\
  Gtsam.calculateEstimate (isam (head_at self 2)) (Gtsam.X 0) = None /\
  Gtsam.at_key (initial (head_at self 2)) (Gtsam.X 1)
    <> Gtsam.calculateEstimate (isam (head_at self 2)) (Gtsam.X 0).
Proof.
  intros self.
  assert (Hpr : processed_epoch self 1 = true) by (vm_compute; reflexivity).
  assert (Hc : completed self 1) by (unfold completed; vm_compute; lia).
  assert (Hrows : rows (iekf_states self) 4) by (repeat split).
  destruct (processed_epoch_locals self 1 Hpr Hc)
    as (prev_state & Hprev & _ & Hin & Hi).
  change (1 - 1) with 0 in Hprev.
  rewrite (get_nav_state_in_range self 4 0 Hrows ltac:(lia)) in Hprev.
  injection Hprev as <-.
  split; [exact Hpr|]. split; [exact Hc|].
  rewrite Hin, Hi. split; [reflexivity|]. split; [reflexivity|].
  cbn. discriminate.
Qed.

(** ** The claim about the loop bound *)

(** C9, as the code has it.  The loop always ends, and a turn that
    returns has moved the epoch index on by exactly one, on the skip path
    and on the processed path alike.  When the run returns, rather than
    ending in an exception, its turns were those for the epoch indices 0
    to 99 in order, each of which returned, and it stopped with the
    index at the bound 100, whatever the logs hold beyond that. *)
Theorem run_stops_at_bound (self : AUViSAM) :
  iSAM self <> OutOfFuel /\
  (forall f f', iteration self f = Val tt f' ->
                state_idx f' = state_idx f + 1) /\
  (returns (iSAM self) = true ->
   (exists f, iSAM self = Val tt f /\ state_idx f = 100 /\
              head_at self 100 = f) /\
   map state_idx (iSAM_heads self) = seq 0 101 /\
   (forall n, n < 100 ->
      completed self n /\
      iteration self (head_at self n) = Val tt (head_at self (S n)) /\
      state_idx (head_at self n) = n /\
      state_idx (head_at self (S n)) = n + 1)).
Proof.
  split; [apply iSAM_never_out_of_fuel|]. split.
  { intros g g' Hit. pose proof (iteration_forward self g) as H.
    rewrite Hit in H. destruct H as [H _]. exact H. }
  intros Hret.
  destruct (iSAM self) as [[] f | e f |] eqn:Hrun; try discriminate.
  unfold iSAM in Hrun.
  destruct (heads_of_return self 101 entry_frame f
              ltac:(cbn; lia) ltac:(cbn; lia) Hrun) as [Hmap Hlast].
  change (state_idx entry_frame) with 0 in Hmap, Hlast.
  change (heads 101 self entry_frame) with (iSAM_heads self) in Hmap, Hlast.
  cbn [Nat.sub] in Hmap, Hlast.
  assert (Hlen : length (iSAM_heads self) = 101).
  { rewrite <- (length_map state_idx), Hmap. apply length_seq. }
  assert (Hf : head_at self 100 = f).
  { pose proof (head_at_nth_error self 100 ltac:(lia)) as H. congruence. }
  split.
  { exists f. split; [reflexivity|]. split; [|exact Hf].
    rewrite <- Hf. apply head_at_state_idx. lia. }
  split; [exact Hmap|].
  intros n Hn.
  assert (Hc : completed self n) by (unfold completed; lia).
  destruct (completed_turn self n Hc) as (_ & Hidx & Hit).
  split; [exact Hc|]. split; [exact Hit|]. split; [exact Hidx|].
  rewrite head_at_state_idx by lia. lia.
Qed.

Lemma run_stops_at_bound_witness :
  let self := init (regular_logs 120 130 10 5) in
  length (iekf_times self) = 120 /\
  iSAM self <> OutOfFuel /\
  exists f, iSAM self = Val tt f /\ state_idx f = 100.
Proof.
  intros self.
  destruct (run_stops_at_bound self) as (Hends & _ & Hrun).
  destruct Hrun as ((f & Hrun & Hidx & _) & _).
  - vm_compute. reflexivity.
  - split; [vm_compute; reflexivity|]. split; [exact Hends|].
    exists f. auto.
Defined.

(** C9 as stated fails: with an external-state series of only 3 rows
    the loop is entered for the epoch indices 0, 1, 2 and 3 and the run
    ends there with [IndexError]; it does not go through the indices up
    to 99 and does not stop with the index at 100. *)
Lemma short_series_run_stops_before_bound :
  let self := init (regular_logs 3 100 10 5) in
  map state_idx (iSAM_heads self) = [0; 1; 2; 3] /\
  (exists f, iSAM self = Exc IndexError f /\ state_idx f = 3) /\
  ~ (exists f, iSAM self = Val tt f /\ state_idx f = 100).
Proof.
  intros self.
  assert (H : match iSAM self with
              | Exc IndexError f => state_idx f = 3
              | _ => False
              end) by (vm_compute; reflexivity).
  split; [vm_compute; reflexivity|].
  destruct (iSAM self) as [a f | e f |]; try contradiction.
  destruct e; try contradiction.
  split.
  - exists f. split; [reflexivity | exact H].
  - intros (g & Hg & _). discriminate.
Qed.

(** * Further properties of the code *)

(** ** The adapter on ragged and short series *)

Lemma get_nav_state_IndexError (self : AUViSAM) (time : nat) (e : Exn) :
  get_nav_state self time = Raise e -> e = IndexError.
Proof.
  unfold get_nav_state, py_index.
  repeat match goal with
         | |- context [nth_error ?l ?i] => destruct (nth_error l i)
         end; cbn [rbind]; congruence.
Qed.

Ltac column_in_range H :=
  match type of H with
  | context [py_index ?l ?i] =>
      let E := fresh "E" in
      destruct (py_index l i) eqn:E; cbn [rbind] in H; [|discriminate H];
      apply py_index_Ok in E;
      assert (i < length l) by (apply nth_error_Some; rewrite E; discriminate);
      clear E
  end.

Lemma get_nav_state_rows (self : AUViSAM) (time : nat)
  (state : Gtsam.NavState) :
  get_nav_state self time = Ok state ->
  time < state_rows (iekf_states self).
Proof.
  intros H. unfold get_nav_state in H.
  repeat column_in_range H.
  unfold state_rows. lia.
Qed.

Lemma get_nav_state_row (self : AUViSAM) (time : nat) :
  time < state_rows (iekf_states self) ->
  get_nav_state self time = Ok (row_state (iekf_states self) time).
Proof.
  unfold state_rows. intros Hlt. unfold get_nav_state.
  rewrite (py_index_nth (x _) time 0%R) by lia.
  rewrite (py_index_nth (y _) time 0%R) by lia.
  rewrite (py_index_nth (z _) time 0%R) by lia.
  rewrite (py_index_nth (u _) time 0%R) by lia.
  rewrite (py_index_nth (v _) time 0%R) by lia.
  rewrite (py_index_nth (r _) time 0%R) by lia.
  rewrite (py_index_nth (phi _) time 0%R) by lia.
  rewrite (py_index_nth (theta _) time 0%R) by lia.
  rewrite (py_index_nth (psi _) time 0%R) by lia.
  cbn [rbind].
  rewrite RotationFacts.from_rotvec_x, RotationFacts.from_rotvec_y,
    RotationFacts.from_rotvec_z.
  reflexivity.
Qed.

(** [get_nav_state] succeeds exactly on the indices that every one of
    the nine columns has, and then returns the state of that row: the
    position [(x, y, z)], the velocity [(u, v, r)] and the rotation of
    the three angles.  On any other index it raises [IndexError]. *)
Theorem get_nav_state_defined_on_rows (self : AUViSAM) (time : nat) :
  (time < state_rows (iekf_states self) ->
   get_nav_state self time = Ok (row_state (iekf_states self) time)) /\
  (state_rows (iekf_states self) <= time ->
   get_nav_state self time = Raise IndexError) /\
  (forall state, get_nav_state self time = Ok state ->
     time < state_rows (iekf_states self) /\
     Gtsam.translation (Gtsam.pose state) =
       (nth time (x (iekf_states self)) 0%R,
        nth time (y (iekf_states self)) 0%R,
        nth time (z (iekf_states self)) 0%R) /\
     Gtsam.velocity state =
       (nth time (u (iekf_states self)) 0%R,
        nth time (v (iekf_states self)) 0%R,
        nth time (r (iekf_states self)) 0%R)).
Proof.
  split; [apply get_nav_state_row|]. split.
  - intros Hge.
    destruct (get_nav_state self time) as [state|e] eqn:Hget.
    + apply get_nav_state_rows in Hget. lia.
    + apply get_nav_state_IndexError in Hget. subst e. reflexivity.
  - intros state Hget.
    pose proof (get_nav_state_rows self time state Hget) as Hlt.
    rewrite (get_nav_state_row self time Hlt) in Hget. injection Hget as <-.
    split; [exact Hlt|]. split; reflexivity.
Qed.

(** ** The orientation is a proper rotation *)

Module RotationGroup.
Import Linalg.
Local Open Scope R_scope.

Ltac entries m :=
  destruct m as [[[[? ?] ?] [[? ?] ?]] [[? ?] ?]].

Lemma transpose_matmul (a b : Mat3) :
  transpose (matmul a b) = matmul (transpose b) (transpose a).
Proof.
  entries a. entries b. unfold transpose, matmul, dot, col.
  componentwise; ring.
Qed.

Lemma det_matmul (a b : Mat3) : det (matmul a b) = det a * det b.
Proof. entries a. entries b. unfold det, matmul, dot, col. ring. Qed.

Lemma matmul_identity_r (a : Mat3) : matmul a identity = a.
Proof.
  entries a. unfold matmul, identity, dot, col. componentwise; ring.
Qed.

Lemma proper_rotation_matmul (a b : Mat3) :
  proper_rotation a -> proper_rotation b -> proper_rotation (matmul a b).
Proof.
  intros (Ha & Ha' & Hda) (Hb & Hb' & Hdb). unfold proper_rotation.
  rewrite transpose_matmul. split; [|split].
  - rewrite AdapterFacts.matmul_assoc.
    rewrite <- (AdapterFacts.matmul_assoc b).
    rewrite Hb, AdapterFacts.matmul_identity_l. exact Ha.
  - rewrite AdapterFacts.matmul_assoc.
    rewrite <- (AdapterFacts.matmul_assoc (transpose a)).
    rewrite Ha', AdapterFacts.matmul_identity_l. exact Hb'.
  - rewrite det_matmul, Hda, Hdb. ring.
Qed.

Ltac axis_is_proper a :=
  pose proof (sin2_cos2 a) as Hunit; unfold Rsqr in Hunit;
  cbv beta iota zeta
      delta [proper_rotation transpose det matmul dot col identity];
  split; [|split]; componentwise; nra.

Lemma proper_Rx (a : R) : proper_rotation (Rx a).
Proof. unfold Rx. axis_is_proper a. Qed.

Lemma proper_Ry (a : R) : proper_rotation (Ry a).
Proof. unfold Ry. axis_is_proper a. Qed.

Lemma proper_Rz (a : R) : proper_rotation (Rz a).
Proof. unfold Rz. axis_is_proper a. Qed.

End RotationGroup.

(** The orientation [get_nav_state] returns for a row of the series is
    a proper rotation whatever the three logged angles are: the matrix
    times its transpose is the identity, either way round, and its
    determinant is one. *)
Theorem get_nav_state_proper_rotation (self : AUViSAM) (time : nat) :
  time < state_rows (iekf_states self) ->
  exists state,
    get_nav_state self time = Ok state /\
    proper_rotation (Gtsam.matrix (Gtsam.rotation (Gtsam.pose state))).
Proof.
  intros Hlt.
  exists (row_state (iekf_states self) time).
  split; [exact (get_nav_state_row self time Hlt)|].
  cbn [row_state Gtsam.pose Gtsam.rotation Gtsam.attitude Gtsam.matrix].
  apply RotationGroup.proper_rotation_matmul;
    [apply RotationGroup.proper_rotation_matmul|].
  - apply RotationGroup.proper_Rx.
  - apply RotationGroup.proper_Ry.
  - apply RotationGroup.proper_Rz.
Qed.

Lemma get_nav_state_proper_rotation_witness :
  let self := init (regular_logs 3 3 10 5) in
  exists state,
    get_nav_state self 1 = Ok state /\
    det (Gtsam.matrix (Gtsam.rotation (Gtsam.pose state))) = 1%R.
Proof.
  intros self.
  destruct (get_nav_state_proper_rotation self 1) as (state & Hget & Hrot).
  - cbn. lia.
  - exists state. split; [exact Hget|]. destruct Hrot as (_ & _ & Hdet).
    exact Hdet.
Defined.

(** ** How a run can end *)

Lemma turn_raises_IndexError (self : AUViSAM) (f f' : Frame) (e : Exn) :
  turn self f (Exc e f') -> e = IndexError.
Proof.
  intros H.
  inversion H as [ e0 Hst | | state e0 Hi Hst Hraise | | state t_i t_prev e0 Hi Hst Hti Htp Hdt Hprev
                 | state t_i t_prev prev_state o Hi Hst Hti Htp Hdt Hprev
                     Hal Hadv ]; subst.
  - eapply get_nav_state_IndexError; eauto.
  - destruct (py_index (iekf_times self) (state_idx f)) as [t|e1] eqn:E;
      cbn [rbind] in Hraise.
    + apply py_index_Raise in Hraise. tauto.
    + injection Hraise as <-. apply py_index_Raise in E. tauto.
  - eapply get_nav_state_IndexError; eauto.
  - apply aligns_alignment in Hal as (g & Hfin & _ & Hend).
    destruct o as [[] g' | e1 g' |]; cbn in Hadv; try discriminate.
    injection Hadv as <- <-. cbn in Hend. tauto.
Qed.

(** What a turn that returns has read. *)
Lemma turn_returns_reads (self : AUViSAM) (f f' : Frame) :
  turn self f (Val tt f') ->
  state_idx f < state_rows (iekf_states self) /\
  (state_idx f <> 0 -> state_idx f < length (iekf_times self)).
Proof.
  intros H.
  inversion H as [ | state Hi Hst | | state t_i t_prev Hi Hst Hti Htp Hdt
                 | | state t_i t_prev prev_state o Hi Hst Hti Htp Hdt Hprev
                       Hal Hadv ]; subst.
  - rewrite Hi. split; [|congruence].
    eapply get_nav_state_rows; eauto.
  - split; [eapply get_nav_state_rows; eauto|]. intros _.
    apply nth_error_Some. congruence.
  - split; [eapply get_nav_state_rows; eauto|]. intros _.
    apply nth_error_Some. congruence.
Qed.

Lemma returned_run_heads (self : AUViSAM) (f : Frame) :
  iSAM self = Val tt f ->
  length (iSAM_heads self) = 101 /\ head_at self 100 = f.
Proof.
  intros Hrun. unfold iSAM in Hrun.
  destruct (heads_of_return self 101 entry_frame f
              ltac:(cbn; lia) ltac:(cbn; lia) Hrun) as [Hmap Hlast].
  change (state_idx entry_frame) with 0 in Hmap, Hlast.
  change (heads 101 self entry_frame) with (iSAM_heads self) in Hmap, Hlast.
  cbn [Nat.sub] in Hmap, Hlast.
  assert (Hlen : length (iSAM_heads self) = 101).
  { rewrite <- (length_map state_idx), Hmap. apply length_seq. }
  split; [exact Hlen|].
  pose proof (head_at_nth_error self 100 ltac:(lia)) as H. congruence.
Qed.

(** The turn in which a run raised: it started from the last frame of
    the list, whose epoch index the exception frame still has. *)
Lemma raised_run_heads (self : AUViSAM) (e : Exn) (f : Frame) :
  iSAM self = Exc e f ->
  let n := length (iSAM_heads self) - 1 in
  n < length (iSAM_heads self) /\
  iteration self (head_at self n) = Exc e f /\
  state_idx f = n /\ n < 100.
Proof.
  intros Hrun n. unfold iSAM in Hrun.
  destruct (heads_of_raise self 101 entry_frame e f Hrun)
    as (g & Hlast & Hlt & Hit).
  change (heads 101 self entry_frame) with (iSAM_heads self) in Hlast.
  fold n in Hlast.
  assert (Hn : n < length (iSAM_heads self)).
  { apply nth_error_Some. congruence. }
  assert (Hg : head_at self n = g).
  { pose proof (head_at_nth_error self n Hn). congruence. }
  pose proof (head_at_state_idx self n Hn) as Hidx.
  rewrite Hg in *. split; [exact Hn|]. split; [exact Hit|].
  pose proof (iteration_forward self g) as Hfw. rewrite Hit in Hfw.
  destruct Hfw as [Hsame _]. split; lia.
Qed.

Lemma returned_run_bound (self : AUViSAM) (f : Frame) :
  iSAM self = Val tt f -> state_idx f = 100.
Proof.
  intros Hrun. destruct (returned_run_heads self f Hrun) as [Hlen Hf].
  rewrite <- Hf. apply head_at_state_idx. lia.
Qed.

Lemma raised_run_IndexError (self : AUViSAM) (e : Exn) (f : Frame) :
  iSAM self = Exc e f -> e = IndexError.
Proof.
  intros Hrun.
  destruct (raised_run_heads self e f Hrun) as (Hn & Hit & Hidx & Hlt).
  pose proof (iteration_turn self
                (head_at self (length (iSAM_heads self) - 1))) as Ht.
  rewrite Hit in Ht. eapply turn_raises_IndexError; eauto.
Qed.

(** The inserts into the values never meet a key that is already
    there: no run is ended by [ValuesKeyAlreadyExists].  A run that
    returns does so with the epoch index at the bound 100, and a run that
    is ended by an exception has the epoch index below the bound.  (The
    arithmetic on timestamps is exact here, so this says nothing of an
    overflow in the products with [1e-9] and [1e-18].) *)
Theorem run_inserts_never_clash (self : AUViSAM) :
  match iSAM self with
  | Val _ f => state_idx f = 100
  | Exc e f =>
      (forall k, e <> ValuesKeyAlreadyExists k) /\ state_idx f < 100
  | OutOfFuel => False
  end.
Proof.
  destruct (iSAM self) as [[] f | e f |] eqn:Hrun.
  - exact (returned_run_bound self f Hrun).
  - split.
    + intros k Hk. pose proof (raised_run_IndexError self e f Hrun).
      congruence.
    + destruct (raised_run_heads self e f Hrun) as (_ & _ & Hidx & Hlt).
      lia.
  - exact (iSAM_never_out_of_fuel self Hrun).
Qed.

(** When a column of the external-state series, or the series of
    epoch timestamps, has fewer than 100 entries, the run does not
    return: it raises [IndexError], at an epoch index that is at most
    the number of complete state rows and, past epoch 1, at most the
    number of timestamps. *)
Theorem short_logs_raise (self : AUViSAM) :
  state_rows (iekf_states self) < 100 \/ length (iekf_times self) < 100 ->
  exists f,
    iSAM self = Exc IndexError f /\
    state_idx f <= state_rows (iekf_states self) /\
    state_idx f <= Nat.max 1 (length (iekf_times self)).
Proof.
  intros Hshort.
  assert (Hdone : forall n, completed self n ->
            n < state_rows (iekf_states self) /\
            (n <> 0 -> n < length (iekf_times self))).
  { intros n Hc. destruct (completed_turn self n Hc) as (_ & Hidx & Hit).
    pose proof (iteration_turn self (head_at self n)) as Ht.
    rewrite Hit in Ht. apply turn_returns_reads in Ht.
    rewrite Hidx in Ht. exact Ht. }
  destruct (iSAM self) as [[] f | e f |] eqn:Hrun.
  - destruct (returned_run_heads self f Hrun) as [Hlen _].
    destruct (Hdone 99) as [H1 H2]; [unfold completed; lia|].
    specialize (H2 ltac:(lia)). lia.
  - pose proof (raised_run_IndexError self e f Hrun). subst e.
    exists f. split; [reflexivity|].
    destruct (raised_run_heads self IndexError f Hrun)
      as (Hn & _ & Hidx & _).
    destruct (Nat.eq_dec (state_idx f) 0) as [H0 | H0]; [lia|].
    destruct (Hdone (state_idx f - 1)) as [H1 H2]; [unfold completed; lia|].
    split; [lia|].
    destruct (Nat.eq_dec (state_idx f) 1) as [H1' | H1']; [lia|].
    specialize (H2 ltac:(lia)). lia.
  - destruct (iSAM_never_out_of_fuel self Hrun).
Qed.

Lemma short_logs_raise_witness :
  let self := init (regular_logs 3 100 10 5) in
  exists f, iSAM self = Exc IndexError f /\ state_idx f <= 3.
Proof.
  intros self.
  destruct (short_logs_raise self) as (f & Hrun & Hidx & _).
  - left. cbn. lia.
  - exists f. split; [exact Hrun|]. exact Hidx.
Defined.

(** ** Logs on which a run returns *)

Lemma sample_lines_readable (self : AUViSAM) (k : nat) :
  k < length (imu_times self) ->
  length (imu_times self) <= imu_rows (imu self) ->
  exists ls, sample_lines self k = Ok ls.
Proof.
  unfold imu_rows. intros Hk Hrows. unfold sample_lines.
  rewrite (py_index_nth (omega_x _) k 0%R) by lia.
  rewrite (py_index_nth (omega_y _) k 0%R) by lia.
  rewrite (py_index_nth (omega_z _) k 0%R) by lia.
  rewrite (py_index_nth (ax _) k 0%R) by lia.
  rewrite (py_index_nth (ay _) k 0%R) by lia.
  rewrite (py_index_nth (az _) k 0%R) by lia.
  rewrite (py_index_nth (imu_times _) k 0%Z) by lia.
  cbn [rbind]. eauto.
Qed.

(** In front of a sample that is not earlier than the epoch, with
    every IMU column as long as the stream, the inner loop returns, and
    it does not pass that sample. *)
Lemma aligns_returns (self : AUViSAM) (t_state : Z) (f : Frame)
  (o : outcome unit) (k : nat) (t_k : Z) :
  aligns self t_state f o ->
  length (imu_times self) <= imu_rows (imu self) ->
  nth_error (imu_times self) k = Some t_k ->
  (t_state <= t_k)%Z ->
  imu_idx f <= k ->
  exists f', o = Val tt f' /\ imu_idx f' <= k.
Proof.
  intros Hal Hrows Hk Hle.
  assert (Hklen : k < length (imu_times self)).
  { apply nth_error_Some. congruence. }
  induction Hal as [f t_imu Ht Hstop | f Hlen | f t_imu Ht Hlt Hls
                   | f t_imu ls o Ht Hlt Hls Hrun IH]; intros Hcur.
  - eauto.
  - lia.
  - destruct (sample_lines_readable self (imu_idx f)) as [ls Hok];
      [lia | exact Hrows | congruence].
  - apply IH.
    change (imu_idx (consume ls f)) with (imu_idx f + 1).
    destruct (Nat.eq_dec (imu_idx f) k) as [Heq | Hne]; [|lia].
    rewrite Heq in Ht. assert (t_imu = t_k) by congruence. lia.
Qed.

Lemma firstn_nth_error_In (A : Type) (l : list A) (n i : nat) (a : A) :
  i < n -> nth_error l i = Some a -> In a (firstn n l).
Proof.
  revert n i. induction l as [|b l IH]; intros n i Hlt Hnth.
  - destruct i; discriminate.
  - destruct n as [|n]; [lia|]. destruct i as [|i]; cbn in *.
    + left. congruence.
    + right. apply (IH n i); [lia | exact Hnth].
Qed.

(** From a frame below the bound whose cursor has not passed sample
    [k], on complete logs, the turn returns and the cursor still has not
    passed [k]. *)
Lemma turn_on_complete_logs (self : AUViSAM) (k : nat) (t_k : Z)
  (f : Frame) :
  100 <= state_rows (iekf_states self) ->
  100 <= length (iekf_times self) ->
  length (imu_times self) <= imu_rows (imu self) ->
  nth_error (imu_times self) k = Some t_k ->
  forallb (fun t => (t <=? t_k)%Z) (firstn 100 (iekf_times self)) = true ->
  state_idx f < 100 -> imu_idx f <= k ->
  exists f', iteration self f = Val tt f' /\ imu_idx f' <= k.
Proof.
  intros Hstates Htimes Hrows Hk Hall Hidx Hcur.
  pose proof (get_nav_state_row self (state_idx f) ltac:(lia)) as Hin.
  pose proof (get_nav_state_row self (state_idx f - 1) ltac:(lia)) as Hin'.
  pose proof (iteration_turn self f) as Ht.
  inversion Ht as [ e Hst | state Hi Hst | state e Hi Hst Hraise
                  | state t_i t_prev Hi Hst Hti Htp Hdt
                  | state t_i t_prev e Hi Hst Hti Htp Hdt Hprev
                  | state t_i t_prev prev_state o Hi Hst Hti Htp Hdt Hprev
                      Hal ].
  - congruence.
  - eexists. split; [reflexivity | exact Hcur].
  - destruct (py_index_in_range (iekf_times self) (state_idx f)
                ltac:(lia)) as [t Ht1].
    destruct (py_index_in_range (iekf_times self) (state_idx f - 1)
                ltac:(lia)) as [t' Ht2].
    rewrite Ht1 in Hraise. cbn [rbind] in Hraise. congruence.
  - eexists. split; [reflexivity | exact Hcur].
  - congruence.
  - assert (Hle : (t_i <= t_k)%Z).
    { apply Z.leb_le.
      apply (proj1 (forallb_forall _ _) Hall t_i).
      apply (firstn_nth_error_In _ _ _ (state_idx f)); assumption. }
    destruct (aligns_returns self t_i _ o k t_k Hal Hrows Hk Hle)
      as (g & -> & Hg); [exact Hcur|].
    eexists. split; [reflexivity | exact Hg].
Qed.

Lemma while_loop_on_complete_logs (self : AUViSAM) (k : nat) (t_k : Z) :
  100 <= state_rows (iekf_states self) ->
  100 <= length (iekf_times self) ->
  length (imu_times self) <= imu_rows (imu self) ->
  nth_error (imu_times self) k = Some t_k ->
  forallb (fun t => (t <=? t_k)%Z) (firstn 100 (iekf_times self)) = true ->
  forall fuel f,
    100 - state_idx f < fuel -> imu_idx f <= k ->
    exists f', while_loop fuel self f = Val tt f' /\ imu_idx f' <= k.
Proof.
  intros Hstates Htimes Hrows Hk Hall.
  induction fuel as [|fuel IH]; intros f Hfuel Hcur; [lia|].
  rewrite while_loop_unfold.
  destruct (Nat.ltb_spec (state_idx f) 100) as [Hlt | Hge].
  - destruct (turn_on_complete_logs self k t_k f
                Hstates Htimes Hrows Hk Hall Hlt Hcur) as (g & Hit & Hg).
    rewrite Hit.
    pose proof (iteration_forward self f) as Hfw. rewrite Hit in Hfw.
    destruct Hfw as [Hidx _].
    apply IH; [lia | exact Hg].
  - eauto.
Qed.

(** Logs on which the run goes through: every state column and the
    timestamp series have at least 100 entries, every IMU column is as
    long as the IMU stream, and some IMU sample [k] is not earlier than
    any of the first 100 epoch timestamps.  Then [iSAM] returns, with the
    epoch index at 100 and the cursor not past [k]. *)
Theorem complete_logs_run_returns (self : AUViSAM) (k : nat) (t_k : Z) :
  100 <= state_rows (iekf_states self) ->
  100 <= length (iekf_times self) ->
  length (imu_times self) <= imu_rows (imu self) ->
  nth_error (imu_times self) k = Some t_k ->
  forallb (fun t => (t <=? t_k)%Z) (firstn 100 (iekf_times self)) = true ->
  exists f, iSAM self = Val tt f /\ state_idx f = 100 /\ imu_idx f <= k.
Proof.
  intros Hstates Htimes Hrows Hk Hall.
  destruct (while_loop_on_complete_logs self k t_k
              Hstates Htimes Hrows Hk Hall 101 entry_frame)
    as (f & Hrun & Hcur); [cbn; lia | cbn; lia |].
  exists f. fold (iSAM self) in Hrun. split; [exact Hrun|].
  split; [exact (returned_run_bound self f Hrun) | exact Hcur].
Qed.

Lemma complete_logs_run_returns_witness :
  let self := init (regular_logs 120 130 10 5) in
  exists f, iSAM self = Val tt f /\ state_idx f = 100 /\ imu_idx f <= 99.
Proof.
  intros self.
  apply (complete_logs_run_returns self 99 995%Z).
  - vm_compute. lia.
  - vm_compute. lia.
  - vm_compute. lia.
  - vm_compute. reflexivity.
  - vm_compute. reflexivity.
Defined.

(** ** The cursor stays inside the stream *)

Lemma alignment_cursor_bound (self : AUViSAM) (t_state : Z) (f f' : Frame) :
  alignment self t_state f f' ->
  imu_idx f <= length (imu_times self) ->
  imu_idx f' <= length (imu_times self).
Proof.
  intros [_ Hfw Hear _] Hcur.
  destruct (Nat.eq_dec (imu_idx f') (imu_idx f)) as [Heq | Hne]; [lia|].
  destruct (Hear (imu_idx f' - 1)) as (t & Ht & _); [lia|].
  assert (imu_idx f' - 1 < length (imu_times self)).
  { apply nth_error_Some. congruence. }
  lia.
Qed.

Lemma turn_cursor_bound (self : AUViSAM) (f : Frame) (o : outcome unit) :
  turn self f o ->
  imu_idx f <= length (imu_times self) ->
  forall f', final_frame o = Some f' ->
             imu_idx f' <= length (imu_times self).
Proof.
  destruct 1 as [e Hst | state Hi Hst | state e Hi Hst Hti
                | state t_i t_prev Hi Hst Hti Htp Hdt
                | state t_i t_prev e Hi Hst Hti Htp Hdt Hprev
                | state t_i t_prev prev_state o Hi Hst Hti Htp Hdt Hprev Hal];
    intros Hcur f' Hfin; cbn in Hfin.
  1-5: injection Hfin as <-; exact Hcur.
  apply aligns_alignment in Hal as (g & Hg & Hal & _).
  assert (Hgb : imu_idx g <= length (imu_times self)).
  { eapply alignment_cursor_bound; [exact Hal | exact Hcur]. }
  destruct o as [[] g' | e g' |]; cbn in Hg, Hfin; try discriminate;
    injection Hg as ->; injection Hfin as <-; exact Hgb.
Qed.

Lemma heads_cursor_bound (self : AUViSAM) (n : nat) :
  imu_idx (head_at self n) <= length (imu_times self).
Proof.
  induction n as [|n IH].
  - change (imu_idx (head_at self 0)) with 0. lia.
  - destruct (Nat.lt_ge_cases (S n) (length (iSAM_heads self)))
      as [Hc | Hge].
    + destruct (completed_turn self n Hc) as (_ & _ & Hit).
      pose proof (iteration_turn self (head_at self n)) as Ht.
      rewrite Hit in Ht.
      exact (turn_cursor_bound self _ _ Ht IH _ eq_refl).
    + rewrite (head_at_beyond self (S n) Hge). cbn. lia.
Qed.

(** In every frame of a run, and in the frame a run ends in, whether
    it returns or raises, the IMU cursor is at most the length of the
    IMU stream: the loop never moves it past the end. *)
Theorem imu_cursor_within_stream (self : AUViSAM) :
  (forall n, imu_idx (head_at self n) <= length (imu_times self)) /\
  (forall f, final_frame (iSAM self) = Some f ->
             imu_idx f <= length (imu_times self)).
Proof.
  split; [apply heads_cursor_bound|].
  intros f Hfin.
  destruct (iSAM self) as [[] g | e g |] eqn:Hrun; cbn in Hfin;
    try discriminate; injection Hfin as <-.
  - destruct (returned_run_heads self g Hrun) as [_ <-].
    apply heads_cursor_bound.
  - destruct (raised_run_heads self e g Hrun) as (_ & Hit & _ & _).
    pose proof (iteration_turn self
                  (head_at self (length (iSAM_heads self) - 1))) as Ht.
    rewrite Hit in Ht.
    exact (turn_cursor_bound self _ _ Ht (heads_cursor_bound self _)
                             _ eq_refl).
Qed.

(** ** What a run prints *)

(** A completed turn is the first one, a skipped one or a processed
    one. *)
Lemma completed_kind (self : AUViSAM) (n : nat) :
  completed self n ->
  n = 0 \/ skipped_epoch self n = true \/ processed_epoch self n = true.
Proof.
  intros Hc. destruct (completed_turn self n Hc) as (_ & Hidx & Hit).
  pose proof (iteration_turn self (head_at self n)) as Ht.
  rewrite Hit in Ht. apply turn_returns in Ht. rewrite Hidx in Ht.
  destruct Ht as [[H0 _] | [(Hn & t_i & t_prev & Hti & Htp & Hdt & _)
                          | (Hn & t_i & t_prev & p & g & Hti & Htp & Hdt & _)]].
  - left. exact H0.
  - right. left. unfold skipped_epoch.
    rewrite (dt_nonpositive_Some self n t_i t_prev Hti Htp).
    apply andb_true_intro. split; [apply Nat.leb_le; lia|].
    apply Z.leb_le. exact Hdt.
  - right. right. unfold processed_epoch.
    rewrite (dt_nonpositive_Some self n t_i t_prev Hti Htp).
    apply andb_true_intro. split; [apply Nat.leb_le; lia|].
    destruct (Z.leb_spec (t_i - t_prev) 0); [lia | reflexivity].
Qed.

Lemma skipped_not_processed (self : AUViSAM) (n : nat) :
  skipped_epoch self n = true -> processed_epoch self n = false.
Proof.
  unfold skipped_epoch, processed_epoch.
  destruct (1 <=? n); [|discriminate].
  destruct (dt_nonpositive self n) as [[]|]; cbn; congruence.
Qed.

(** What one completed turn adds to the output, and where it leaves
    the cursor when the epoch is not a processed one. *)
Lemma completed_turn_output (self : AUViSAM) (n : nat) :
  completed self n ->
  stdout (head_at self (S n)) = stdout (head_at self n) ++ epoch_output self n
  /\ (processed_epoch self n = false ->
      imu_idx (head_at self (S n)) = imu_idx (head_at self n)).
Proof.
  intros Hc. unfold epoch_output.
  destruct (completed_kind self n Hc) as [-> | [Hsk | Hpr]].
  - destruct (first_epoch_turn self Hc) as (state & _ & Hf).
    rewrite Hf. change (head_at self 0) with entry_frame.
    split; reflexivity.
  - rewrite (skipped_not_processed self n Hsk).
    destruct (skipped_epoch_locals self n Hsk Hc)
      as (_ & _ & _ & _ & Hcur & Hout).
    rewrite Hout, app_nil_r. auto.
  - rewrite Hpr.
    destruct (processed_epoch_alignment self n Hpr Hc)
      as (t_n & Hti & _ & _ & _ & Hout).
    rewrite Hti. split; [exact Hout | discriminate].
Qed.

(** The output of a run up to the head of the loop for epoch [n] is
    made of one block per processed epoch below [n], in order: the line
    with the epoch's timestamp, then the four lines of each sample its
    turn consumed.  The first epoch and the skipped epochs print nothing. *)
Theorem run_output_by_epoch (self : AUViSAM) (n : nat) :
  n < length (iSAM_heads self) ->
  stdout (head_at self n) = flat_map (epoch_output self) (seq 0 n).
Proof.
  induction n as [|n IH]; intros Hn.
  - reflexivity.
  - destruct (completed_turn_output self n Hn) as [Hout _].
    rewrite Hout, IH by lia.
    rewrite seq_S, flat_map_app. cbn [flat_map Nat.add].
    rewrite app_nil_r. reflexivity.
Qed.

Lemma run_output_by_epoch_witness :
  let self := init stuttering_logs in
  length (stdout (head_at self 4)) = 10 /\
  epoch_output self 0 = [] /\ epoch_output self 2 = [].
Proof.
  intros self.
  rewrite (run_output_by_epoch self 4).
  - split; [vm_compute; reflexivity|].
    split; vm_compute; reflexivity.
  - vm_compute. lia.
Defined.

Lemma sample_lines_length (self : AUViSAM) (k : nat) (ls : list Line) :
  sample_lines self k = Ok ls -> length ls = 4.
Proof.
  unfold sample_lines, py_index.
  repeat match goal with
         | |- context [nth_error ?l ?i] => destruct (nth_error l i)
         end; cbn [rbind]; intros H; try discriminate H.
  injection H as <-. reflexivity.
Qed.

(** Every sample the inner loop went over was read in full. *)
Lemma aligns_reads_samples (self : AUViSAM) (t_state : Z) (f : Frame)
  (o : outcome unit) :
  aligns self t_state f o ->
  forall f', final_frame o = Some f' ->
  forall j, imu_idx f <= j < imu_idx f' -> length (printed self j) = 4.
Proof.
  induction 1 as [f t_imu Ht Hle | f Hlen | f t_imu Ht Hlt Hls
                 | f t_imu ls o Ht Hlt Hls Hrun IH];
    intros f' Hfin j Hj.
  1-3: cbn in Hfin; injection Hfin as <-; lia.
  change (imu_idx (consume ls f)) with (imu_idx f + 1) in IH.
  destruct (Nat.eq_dec j (imu_idx f)) as [-> | Hne].
  - unfold printed. rewrite Hls. eapply sample_lines_length; eauto.
  - apply (IH f' Hfin). lia.
Qed.

Lemma consumed_samples_read (self : AUViSAM) (n j : nat) :
  In j (consumed self n) -> length (printed self j) = 4.
Proof.
  intros Hj. pose proof (consumed_completed self n j Hj) as Hc.
  apply consumed_range in Hj.
  destruct (completed_turn self n Hc) as (_ & Hidx & Hit).
  pose proof (iteration_turn self (head_at self n)) as Ht.
  rewrite Hit in Ht.
  inversion Ht as [ | state Hi Hst Hf | | state t_i t_prev Hi Hst Hti Htp Hdt Hf
                  | | state t_i t_prev prev_state o Hi Hst Hti Htp Hdt Hprev
                        Hal Hadv ].
  - rewrite <- Hf in Hj. cbn in Hj. lia.
  - rewrite <- Hf in Hj. cbn in Hj. lia.
  - destruct o as [[] g | e g |]; cbn in Hadv; try discriminate.
    injection Hadv as Hg. rewrite <- Hg in Hj.
    apply (aligns_reads_samples self t_i _ _ Hal g eq_refl).
    cbn in Hj |- *. lia.
Qed.

Lemma flat_map_length_4 (A B : Type) (g : A -> list B) (l : list A) :
  (forall a, In a l -> length (g a) = 4) ->
  length (flat_map g l) = 4 * length l.
Proof.
  induction l as [|a l IH]; intros H; [reflexivity|].
  cbn [flat_map length]. rewrite length_app, (H a (or_introl eq_refl)), IH.
  - lia.
  - intros b Hb. apply H. right. exact Hb.
Qed.

(** The number of lines a run has printed when it is at the head of
    the loop for epoch [n] is the number of processed epochs below [n]
    plus four times the cursor: one line per processed epoch and four per
    consumed sample, and nothing else. *)
Theorem run_output_line_count (self : AUViSAM) (n : nat) :
  n < length (iSAM_heads self) ->
  length (stdout (head_at self n))
    = length (filter (processed_epoch self) (seq 0 n))
      + 4 * imu_idx (head_at self n).
Proof.
  induction n as [|n IH]; intros Hn.
  - reflexivity.
  - destruct (completed_turn_output self n Hn) as [Hout Hstay].
    destruct (head_at_later self n (S n) ltac:(lia) Hn) as [_ Hle _].
    rewrite Hout, length_app, IH by lia.
    rewrite seq_S, filter_app, length_app. cbn [filter Nat.add].
    unfold epoch_output.
    destruct (processed_epoch self n) eqn:Hpr.
    + destruct (processed_epoch_alignment self n Hpr Hn)
        as (t_n & Hti & _ & _ & _ & _).
      rewrite Hti. cbn [length].
      rewrite (flat_map_length_4 _ _ (printed self) (consumed self n))
        by (intros j Hj; eapply consumed_samples_read; eauto).
      unfold consumed. rewrite length_seq. lia.
    + rewrite (Hstay eq_refl). cbn [length]. lia.
Qed.

Lemma run_output_line_count_witness :
  let self := init (regular_logs 4 6 10 5) in
  length (stdout (head_at self 4)) = 3 + 4 * 3.
Proof.
  intros self.
  rewrite (run_output_line_count self 4).
  - vm_compute. reflexivity.
  - vm_compute. lia.
Defined.

(** ** Aligning again *)

(** Once the inner loop has returned for an epoch timestamp [t],
    running it again for an epoch whose timestamp is not later than [t]
    consumes nothing: it returns at once with the frame unchanged. *)
Theorem realignment_consumes_nothing (self : AUViSAM) (fuel : nat)
  (f f' : Frame) (j : nat) (t t' : Z) :
  nth_error (iekf_times self) (state_idx f) = Some t ->
  length (imu_times self) - imu_idx f < fuel ->
  align fuel self f = Val tt f' ->
  nth_error (iekf_times self) j = Some t' ->
  (t' <= t)%Z ->
  align fuel self (with_state_idx j f') = Val tt (with_state_idx j f').
Proof.
  intros Ht Hfuel Hrun Ht' Hle.
  pose proof (align_aligns self t fuel f Ht Hfuel) as Hal.
  rewrite Hrun in Hal.
  apply aligns_alignment in Hal as (g & Hg & _ & Hend).
  cbn in Hg. injection Hg as <-. cbn in Hend.
  destruct Hend as (t_imu & Himu & Hstop).
  destruct fuel as [|fuel]; [lia|].
  rewrite align_unfold.
  change (state_idx (with_state_idx j f')) with j.
  change (imu_idx (with_state_idx j f')) with (imu_idx f').
  apply py_index_Ok in Ht', Himu. rewrite Ht', Himu.
  destruct (Z.gtb_spec t' t_imu); [lia | reflexivity].
Qed.

Lemma realignment_consumes_nothing_witness :
  let self := init (regular_logs 4 6 10 5) in
  let f := with_state_idx 2 entry_frame in
  exists f', align 7 self f = Val tt f' /\ imu_idx f' = 2 /\
             align 7 self (with_state_idx 1 f') = Val tt (with_state_idx 1 f').
Proof.
  intros self f.
  destruct (align 7 self f) as [[] f' | e f' |] eqn:Hrun.
  - exists f'. split; [reflexivity|]. split.
    + assert (H : match align 7 self f with
                  | Val _ g => imu_idx g
                  | _ => 0
                  end = 2) by (vm_compute; reflexivity).
      rewrite Hrun in H. exact H.
    + apply (realignment_consumes_nothing self 7 f f' 1 20%Z 10%Z).
      * reflexivity.
      * vm_compute. lia.
      * exact Hrun.
      * reflexivity.
      * lia.
  - assert (H : returns (align 7 self f) = true) by (vm_compute; reflexivity).
    rewrite Hrun in H. discriminate.
  - assert (H : returns (align 7 self f) = true) by (vm_compute; reflexivity).
    rewrite Hrun in H. discriminate.
Defined.

(** ** Raising on logs of full size *)

(** On logs of full size (at least 100 entries in every state column
    and in the timestamp series, every IMU column as long as the IMU
    stream) the only way a run raises is by running off the end of the
    IMU stream: the turn that raised is that of a processed epoch, it
    left the cursor at the length of the stream, and every sample from
    where its inner loop started is earlier than the epoch. *)
Theorem full_size_logs_raise_only_on_exhaustion (self : AUViSAM) :
  100 <= state_rows (iekf_states self) ->
  100 <= length (iekf_times self) ->
  length (imu_times self) <= imu_rows (imu self) ->
  match iSAM self with
  | Exc _ f =>
      let n := state_idx f in
      imu_idx f = length (imu_times self) /\
      processed_epoch self n = true /\
      exists t_n,
        nth_error (iekf_times self) n = Some t_n /\
        forall k t, imu_idx (head_at self n) <= k ->
                    nth_error (imu_times self) k = Some t -> (t < t_n)%Z
  | _ => True
  end.
Proof.
  intros Hstates Htimes Hrows.
  destruct (iSAM self) as [[] f | e f |] eqn:Hrun; [exact I | | exact I].
  destruct (raised_run_heads self e f Hrun) as (Hn & Hit & Hidx & Hlt).
  cbv zeta. set (h := head_at self (length (iSAM_heads self) - 1)) in *.
  assert (Hh : state_idx h = state_idx f).
  { unfold h. rewrite head_at_state_idx by exact Hn. lia. }
  assert (Hhead : head_at self (state_idx f) = h).
  { unfold h. f_equal. lia. }
  pose proof (get_nav_state_row self (state_idx h) ltac:(lia)) as Hin.
  pose proof (get_nav_state_row self (state_idx h - 1) ltac:(lia)) as Hin'.
  pose proof (iteration_turn self h) as Ht. rewrite Hit in Ht.
  inversion Ht as [ e0 Hst | | state e0 Hi Hst Hraise | | state t_i t_prev e0 Hi Hst Hti Htp Hdt Hprev
                  | state t_i t_prev prev_state o Hi Hst Hti Htp Hdt Hprev
                      Hal Hadv ].
  - congruence.
  - destruct (py_index_in_range (iekf_times self) (state_idx h)
                ltac:(lia)) as [a Ha].
    destruct (py_index_in_range (iekf_times self) (state_idx h - 1)
                ltac:(lia)) as [b Hb].
    rewrite Ha in Hraise. cbn [rbind] in Hraise. congruence.
  - congruence.
  - destruct o as [[] g | e1 g |]; cbn in Hadv; try discriminate.
    injection Hadv as -> ->.
    apply aligns_alignment in Hal as (g & Hg & Hal & Hend).
    cbn in Hg. injection Hg as <-. cbn in Hend.
    destruct Hend as [_ Hend].
    pose proof (alignment_cursor_bound self t_i _ f Hal) as Hbound.
    change (imu_idx (opened prev_state t_i h)) with (imu_idx h) in *.
    assert (Hhb : imu_idx h <= length (imu_times self))
      by apply heads_cursor_bound.
    specialize (Hbound Hhb).
    assert (Hend' : length (imu_times self) <= imu_idx f).
    { destruct Hend as [Hend | Hend]; [exact Hend|].
      destruct (Nat.lt_ge_cases (imu_idx f) (length (imu_times self)))
        as [Hlt' | Hge]; [|exact Hge].
      destruct (sample_lines_readable self (imu_idx f) Hlt' Hrows)
        as [ls Hls].
      congruence. }
    split; [lia|]. rewrite <- Hh. split.
    + unfold processed_epoch.
      rewrite (dt_nonpositive_Some self (state_idx h) t_i t_prev Hti Htp).
      apply andb_true_intro. split; [apply Nat.leb_le; lia|].
      destruct (Z.leb_spec (t_i - t_prev) 0); [lia | reflexivity].
    + exists t_i. split; [exact Hti|].
      intros k t Hk Hkt. rewrite Hh, Hhead in Hk.
      destruct Hal as [_ _ Hear _].
      change (imu_idx (opened prev_state t_i h)) with (imu_idx h) in Hear.
      destruct (Hear k) as (t0 & Ht0 & Hlt0).
      * split; [exact Hk|].
        assert (k < length (imu_times self))
          by (apply nth_error_Some; congruence).
        lia.
      * assert (t0 = t) by congruence. lia.
Qed.

Lemma full_size_logs_raise_only_on_exhaustion_witness :
  let self := init (regular_logs 100 50 10 5) in
  exists e f, iSAM self = Exc e f /\ imu_idx f = 50 /\
              processed_epoch self (state_idx f) = true.
Proof.
  intros self.
  pose proof (full_size_logs_raise_only_on_exhaustion self) as H.
  assert (Hraised : returns (iSAM self) = false) by (vm_compute; reflexivity).
  destruct (iSAM self) as [[] f | e f |] eqn:Hrun.
  - discriminate.
  - exists e, f. split; [reflexivity|].
    destruct H as (Hcur & Hpr & _).
    + vm_compute. lia.
    + vm_compute. lia.
    + vm_compute. lia.
    + split; [exact Hcur | exact Hpr].
  - destruct (iSAM_never_out_of_fuel self Hrun).
Defined.

(** ** The window of a processed epoch *)

(** Let [m < n] be two processed epochs of a run with only skipped
    epochs in between, and let the IMU stream be in non-decreasing order.
    Then the samples consumed for [n] are those from the cursor left by
    the turn for [m], and each of them has a timestamp [t] with
    [t_m <= t < t_n]: the window of an epoch is closed at the earlier
    epoch's timestamp and open at its own. *)
Theorem processed_epoch_window (self : AUViSAM) (m n : nat) (t_m t_n : Z) :
  nondecreasing (imu_times self) = true ->
  processed_epoch self m = true ->
  m < n ->
  (forall i, m < i < n -> skipped_epoch self i = true) ->
  processed_epoch self n = true ->
  completed self n ->
  nth_error (iekf_times self) m = Some t_m ->
  nth_error (iekf_times self) n = Some t_n ->
  imu_idx (head_at self n) = imu_idx (head_at self (S m)) /\
  forall k, In k (consumed self n) ->
    exists t, nth_error (imu_times self) k = Some t /\
              (t_m <= t < t_n)%Z.
Proof.
  intros Hsorted Hpm Hmn Hbetween Hpn Hcn Htm Htn.
  assert (Hcm : completed self m) by (unfold completed in *; lia).
  destruct (processed_epoch_alignment self m Hpm Hcm)
    as (a & Ha & _ & _ & (t_stop & Hstop & Hge) & _).
  assert (a = t_m) by congruence. subst a.
  destruct (processed_epoch_alignment self n Hpn Hcn)
    as (b & Hb & _ & Hear & _ & _).
  assert (b = t_n) by congruence. subst b.
  assert (Hstay : imu_idx (head_at self n) = imu_idx (head_at self (S m))).
  { destruct (skipped_stretch_cursor self (S m) (n - S m)) as [H _].
    - intros i Hi. apply Hbetween. lia.
    - unfold completed in Hcn. lia.
    - replace (S m + (n - S m)) with n in H by lia. exact H. }
  split; [exact Hstay|].
  intros k Hk. destruct (Hear k Hk) as (t & Ht & Hlt).
  exists t. split; [exact Ht|]. split; [|exact Hlt].
  apply consumed_range in Hk. rewrite Hstay in Hk.
  pose proof (nondecreasing_nth _ Hsorted _ k t_stop t (proj1 Hk) Hstop Ht).
  lia.
Qed.

Lemma processed_epoch_window_witness :
  let self := init stuttering_logs in
  consumed self 3 = [1] /\
  exists t, nth_error (imu_times self) 1 = Some t /\ (10 <= t < 20)%Z.
Proof.
  intros self.
  destruct (processed_epoch_window self 1 3 10%Z 20%Z) as [_ Hwin].
  - vm_compute. reflexivity.
  - vm_compute. reflexivity.
  - lia.
  - intros i Hi. assert (i = 2) by lia. subst i. vm_compute. reflexivity.
  - vm_compute. reflexivity.
  - unfold completed. vm_compute. lia.
  - reflexivity.
  - reflexivity.
  - split; [vm_compute; reflexivity|]. apply Hwin.
    vm_compute. left. reflexivity.
Defined.

(** ** The IMU timestamps a run prints *)

Lemma imu_time_lines_app (a b : list Line) :
  imu_time_lines (a ++ b) = imu_time_lines a ++ imu_time_lines b.
Proof.
  induction a as [|l a IH]; [reflexivity|].
  destruct l; cbn; rewrite IH; reflexivity.
Qed.

Lemma sample_lines_shape (self : AUViSAM) (k : nat) (ls : list Line) :
  sample_lines self k = Ok ls ->
  exists t, nth_error (imu_times self) k = Some t /\
            imu_time_lines ls = [t].
Proof.
  unfold sample_lines, py_index.
  repeat match goal with
         | |- context [nth_error (?c (imu self)) ?i] =>
             destruct (nth_error (c (imu self)) i)
         end; cbn [rbind]; try discriminate.
  destruct (nth_error (imu_times self) k) as [t|]; cbn [rbind];
    [|discriminate].
  intros H. injection H as <-. exists t. split; reflexivity.
Qed.

Lemma aligns_prints_times (self : AUViSAM) (t_state : Z) (f : Frame)
  (o : outcome unit) :
  aligns self t_state f o ->
  forall f', final_frame o = Some f' ->
  forall j, imu_idx f <= j < imu_idx f' ->
    exists t, nth_error (imu_times self) j = Some t /\
              imu_time_lines (printed self j) = [t].
Proof.
  induction 1 as [f t_imu Ht Hle | f Hlen | f t_imu Ht Hlt Hls
                 | f t_imu ls o Ht Hlt Hls Hrun IH];
    intros f' Hfin j Hj.
  1-3: cbn in Hfin; injection Hfin as <-; lia.
  change (imu_idx (consume ls f)) with (imu_idx f + 1) in IH.
  destruct (Nat.eq_dec j (imu_idx f)) as [-> | Hne].
  - unfold printed. rewrite Hls. eapply sample_lines_shape; eauto.
  - apply (IH f' Hfin). lia.
Qed.

Lemma consumed_prints_time (self : AUViSAM) (n j : nat) :
  In j (consumed self n) ->
  exists t, nth_error (imu_times self) j = Some t /\
            imu_time_lines (printed self j) = [t].
Proof.
  intros Hj. pose proof (consumed_completed self n j Hj) as Hc.
  apply consumed_range in Hj.
  destruct (completed_turn self n Hc) as (_ & Hidx & Hit).
  pose proof (iteration_turn self (head_at self n)) as Ht.
  rewrite Hit in Ht.
  inversion Ht as [ | state Hi Hst Hf | | state t_i t_prev Hi Hst Hti Htp Hdt Hf
                  | | state t_i t_prev prev_state o Hi Hst Hti Htp Hdt Hprev
                        Hal Hadv ].
  - rewrite <- Hf in Hj. cbn in Hj. lia.
  - rewrite <- Hf in Hj. cbn in Hj. lia.
  - destruct o as [[] g | e g |]; cbn in Hadv; try discriminate.
    injection Hadv as Hg. rewrite <- Hg in Hj.
    apply (aligns_prints_times self t_i _ _ Hal g eq_refl).
    cbn in Hj |- *. lia.
Qed.

Lemma skipn_nth_error (A : Type) (l : list A) (c : nat) (a : A) :
  nth_error l c = Some a -> skipn c l = a :: skipn (S c) l.
Proof.
  revert c. induction l as [|b l IH]; intros [|c] H; try discriminate.
  - injection H as ->. reflexivity.
  - cbn [nth_error] in H. cbn [skipn]. rewrite (IH c H). reflexivity.
Qed.

Lemma printed_slice (self : AUViSAM) (d c : nat) :
  (forall j, c <= j < c + d ->
     exists t, nth_error (imu_times self) j = Some t /\
               imu_time_lines (printed self j) = [t]) ->
  imu_time_lines (flat_map (printed self) (seq c d))
    = firstn d (skipn c (imu_times self)).
Proof.
  revert c. induction d as [|d IH]; intros c H; [reflexivity|].
  cbn [seq flat_map]. rewrite imu_time_lines_app.
  destruct (H c ltac:(lia)) as (t & Ht & Hp).
  rewrite Hp, (skipn_nth_error _ _ c t Ht). cbn [firstn app].
  f_equal. apply IH. intros j Hj. apply H. lia.
Qed.

Lemma firstn_slice (A : Type) (l : list A) (c d : nat) :
  firstn c l ++ firstn d (skipn c l) = firstn (c + d) l.
Proof.
  revert l. induction c as [|c IH]; intros l; [reflexivity|].
  destruct l as [|a l]; cbn.
  - rewrite firstn_nil. destruct d; reflexivity.
  - rewrite IH. reflexivity.
Qed.

(** The [IMU time] lines printed by a run up to the head of the loop
    for epoch [n] carry the timestamps of the first [c] samples of the
    IMU stream, [c] being the cursor there: each sample before the cursor
    has been printed exactly once, in stream order, and no other. *)
Theorem run_prints_stream_prefix (self : AUViSAM) (n : nat) :
  n < length (iSAM_heads self) ->
  imu_time_lines (stdout (head_at self n))
    = firstn (imu_idx (head_at self n)) (imu_times self).
Proof.
  induction n as [|n IH]; intros Hn.
  - reflexivity.
  - destruct (completed_turn_output self n Hn) as [Hout Hstay].
    destruct (head_at_later self n (S n) ltac:(lia) Hn) as [_ Hle _].
    rewrite Hout, imu_time_lines_app, IH by lia.
    unfold epoch_output.
    destruct (processed_epoch self n) eqn:Hpr.
    + destruct (processed_epoch_alignment self n Hpr Hn)
        as (t_n & Hti & _ & _ & _ & _).
      rewrite Hti. cbn [imu_time_lines]. unfold consumed at 1.
      rewrite printed_slice.
      * rewrite firstn_slice. f_equal. lia.
      * intros j Hj. apply (consumed_prints_time self n).
        apply consumed_range. lia.
    + rewrite (Hstay eq_refl). cbn [imu_time_lines].
      apply app_nil_r.
Qed.

Lemma run_prints_stream_prefix_witness :
  let self := init (regular_logs 4 6 10 5) in
  imu_time_lines (stdout (head_at self 4)) = [5; 15; 25]%Z.
Proof.
  intros self.
  rewrite (run_prints_stream_prefix self 4).
  - vm_compute. reflexivity.
  - vm_compute. lia.
Defined.

(** ** The claim about skipped epochs and the samples that wait *)



